(** * charts.js: the row pipeline behind the declarative charts

    A shallow embedding of the newest revision of [charts.js] (the one with
    [toNumberMaybe], [ensureRequired] and six builders) and the properties
    its specification states about it.

    Conventions of the embedding:
    - a JavaScript string is a [string]: one [ascii] per UTF-16 code unit,
      code units below 256;
    - a record (a parsed CSV row) is a [gmap string value]; [canvas.dataset]
      is a [gmap string string];
    - IEEE-754 arithmetic, [Number(s)], [String(n)] and [localeCompare] are
      what the engine provides: they are the fields of the class [Engine],
      with the few laws of a total order that doubles obey;
    - [Array.prototype.sort] is what the engine provides too, with the
      contract ECMAScript gives it: the result is a permutation of the
      array; when the comparator is consistent it is sorted and keeps ties
      in their order, and otherwise its order is left to the engine.  Two
      engines are given: one sorts by insertion, one as V8 does;
    - a record inherits the members of [Object.prototype]: a column the
      record lacks reads as [undefined] unless it is named like one of
      them;
    - [async] builders run in a small monad of traces and errors: a trace
      records every [fetch] and every [new Chart]. *)

From Stdlib Require Import ZArith Ascii String DecimalString DecimalN DecimalPos OrderedTypeEx Sorted.
From stdpp Require Import gmap strings list sorting.

Local Open Scope string_scope.
Local Open Scope Z_scope.

(** ** Strings *)

Module Str.

(** StrWhiteSpaceChar (WhiteSpace and LineTerminator) below code unit 256:
    TAB, LF, VT, FF, CR, SP and NBSP. *)
Definition isWhiteSpace (c : ascii) : bool :=
  let n := nat_of_ascii c in
  (((9 <=? n) && (n <=? 13)) || (n =? 32) || (n =? 160))%nat.

Fixpoint trimStart (s : string) : string :=
  match s with
  | String c s' => if isWhiteSpace c then trimStart s' else s
  | EmptyString => EmptyString
  end.

Fixpoint trimEnd (s : string) : string :=
  match s with
  | String c s' =>
      match trimEnd s' with
      | EmptyString => if isWhiteSpace c then EmptyString else String c EmptyString
      | t => String c t
      end
  | EmptyString => EmptyString
  end.

(** [String.prototype.trim] *)
Definition trim (s : string) : string := trimEnd (trimStart s).

Definition isEmpty (s : string) : bool :=
  match s with EmptyString => true | _ => false end.

Definition isUpper (c : ascii) : bool :=
  let n := nat_of_ascii c in ((65 <=? n) && (n <=? 90))%nat.

Definition lowerChar (c : ascii) : ascii :=
  if isUpper c then ascii_of_nat (nat_of_ascii c + 32) else c.

(** [String.prototype.toLowerCase], on the ASCII letters. *)
Fixpoint toLowerCase (s : string) : string :=
  match s with
  | String c s' => String (lowerChar c) (toLowerCase s')
  | EmptyString => EmptyString
  end.

(** [k.replace(/[A-Z]/g, m => "-" + m.toLowerCase())] *)
Fixpoint kebab (s : string) : string :=
  match s with
  | String c s' =>
      if isUpper c then String "-" (String (lowerChar c) (kebab s'))
      else String c (kebab s')
  | EmptyString => EmptyString
  end.

(** [Array.prototype.join] on an array of strings. *)
Fixpoint join (sep : string) (l : list string) : string :=
  match l with
  | [] => ""
  | [x] => x
  | x :: l' => x +:+ sep +:+ join sep l'
  end.

Definition digitOf (c : ascii) : option Z :=
  let n := nat_of_ascii c in
  if ((48 <=? n) && (n <=? 57))%nat then Some (Z.of_nat n - 48) else None.

(** The longest prefix of decimal digits, read as an integer; [acc] is the
    value read so far, [None] while no digit has been seen. *)
Fixpoint leadingDigits (s : string) (acc : option Z) : option Z :=
  match s with
  | String c s' =>
      match digitOf c with
      | Some d => leadingDigits s' (Some (10 * default 0 acc + d))
      | None => acc
      end
  | EmptyString => acc
  end.

(** [parseInt(s, 10)]: leading white space is skipped, a sign is read,
    then the longest run of digits; [None] is NaN.  The integer is kept
    exact where [parseInt] rounds it to a double: the two are the same up
    to 2^53 in magnitude, and beyond that they have the same sign and are
    both above the length of any array, which is all [applySortLimit]
    looks at (a comparison with 0 and the end of a [slice]). *)
Definition parseInt (s : string) : option Z :=
  match trimStart s with
  | String "-" r => Z.opp <$> leadingDigits r None
  | String "+" r => leadingDigits r None
  | t => leadingDigits t None
  end.

(** [sub] occurs in [s] ([s.includes(sub)]). *)
Definition occurs (sub s : string) : Prop :=
  exists pre post, s = pre +:+ sub +:+ post.

(** Decimal digits of a natural number, as [String(n)] prints an
    integer status code. *)
Definition ofN (n : N) : string := NilZero.string_of_uint (N.to_uint n).

End Str.

(** ** The contract of [Array.prototype.sort] *)

(** The comparator finds [x] and [y] equal. *)
Definition tie {A} (cmp : A -> A -> comparison) (x y : A) : bool :=
  match cmp x y with Eq => true | _ => false end.

(** A consistent comparator for the elements of [l] (ECMAScript,
    Array.prototype.sort): it finds every element equal to itself, equality
    is symmetric, and equality, "less than" and "greater than" are
    transitive.  [Lt], [Eq] and [Gt] stand for a negative, a zero and a
    positive result, as SortCompare reads it. *)
Definition consistent {A} (cmp : A -> A -> comparison) (l : list A) : Prop :=
  (forall a, a ∈ l -> cmp a a = Eq)
  /\ (forall a b, a ∈ l -> b ∈ l -> cmp a b = Eq -> cmp b a = Eq)
  /\ (forall a b c, a ∈ l -> b ∈ l -> c ∈ l ->
        cmp a b = Eq -> cmp b c = Eq -> cmp a c = Eq)
  /\ (forall a b c, a ∈ l -> b ∈ l -> c ∈ l ->
        cmp a b = Lt -> cmp b c = Lt -> cmp a c = Lt)
  /\ (forall a b c, a ∈ l -> b ∈ l -> c ∈ l ->
        cmp a b = Gt -> cmp b c = Gt -> cmp a c = Gt).

(** ** What the engine provides *)

(** [num_compare a b] is the IEEE-754 comparison of two doubles: [None]
    when they are unordered (one of them is NaN), [Some Eq] also for [+0]
    and [-0].  On doubles other than NaN it is a total order. *)
Class Engine := {
  number : Type;
  num_compare : number -> number -> option comparison;
  Number_of_string : string -> number;
  String_of_number : number -> string;
  localeCompare : string -> string -> comparison;
  num_compare_None : forall a b,
    num_compare a b = None <-> num_compare a a = None \/ num_compare b b = None;
  num_compare_refl : forall a, num_compare a a <> None -> num_compare a a = Some Eq;
  num_compare_antisym : forall a b, num_compare b a = CompOpp <$> num_compare a b;
  num_compare_trans : forall a b c,
    num_compare a b <> Some Gt -> num_compare b c <> Some Gt ->
    num_compare a b <> None -> num_compare b c <> None ->
    num_compare a c <> Some Gt;
  localeCompare_antisym : forall s t, localeCompare t s = CompOpp (localeCompare s t);
  localeCompare_trans : forall s t u,
    localeCompare s t <> Gt -> localeCompare t u <> Gt -> localeCompare s u <> Gt;
  String_of_number_nonempty : forall x, String_of_number x <> "";
  (** [String(f)] for the built-in function named [name]: a text of the
      form [function name() { [native code] }], its white space left to the
      engine. *)
  String_of_function : string -> string;
  String_of_function_nonempty : forall name, String_of_function name <> "";
  (** [Array.prototype.sort] on the elements of an array.  The result is a
      permutation that depends on the comparator only through what it
      returns; when the comparator is consistent the result is sorted and
      elements that compare equal keep their order; otherwise the order is
      implementation-defined. *)
  sort : forall A : Type, (A -> A -> comparison) -> list A -> list A;
  sort_perm : forall A (cmp : A -> A -> comparison) l, sort A cmp l ≡ₚ l;
  sort_ext : forall A (cmp1 cmp2 : A -> A -> comparison) l,
    (forall a b, cmp1 a b = cmp2 a b) -> sort A cmp1 l = sort A cmp2 l;
  sort_sorted : forall A (cmp : A -> A -> comparison) l,
    consistent cmp l -> StronglySorted (fun x y => cmp x y <> Gt) (sort A cmp l);
  sort_stable : forall A (cmp : A -> A -> comparison) l,
    consistent cmp l ->
    forall x, x ∈ l ->
      List.filter (tie cmp x) (sort A cmp l) = List.filter (tie cmp x) l;
}.
Arguments sort {_ A} cmp l.
Arguments sort_perm {_ A} cmp l.
Arguments sort_ext {_ A} cmp1 cmp2 l.
Arguments sort_sorted {_ A} cmp l.
Arguments sort_stable {_ A} cmp l.

(** ** Values, records and the pure stages of the pipeline *)

Section Pipeline.
Context `{Engine}.

(** What reading a column of a parsed row can give: PapaParse with
    [dynamicTyping] yields numbers, booleans, [null] for an empty field and
    text (its [Date] for ISO date text is left out); a key the row lacks
    reads as [undefined], or as what the row inherits under that name:
    [VInherited k] is the built-in function [Object.prototype[k]], and for
    [__proto__] the object [Object.prototype] itself. *)
Inductive value :=
| VUndefined
| VNull
| VBool (b : bool)
| VNum (x : number)
| VStr (s : string)
| VInherited (k : string).

(** The properties every object inherits from [Object.prototype]. *)
Definition inherited : list string :=
  ["constructor"; "hasOwnProperty"; "isPrototypeOf"; "propertyIsEnumerable";
   "toLocaleString"; "toString"; "valueOf"; "__proto__";
   "__defineGetter__"; "__defineSetter__"; "__lookupGetter__";
   "__lookupSetter__"].

(** The name of the built-in function [Object.prototype[k]]: the
    constructor is [Object], the others are named like the property. *)
Definition functionName (k : string) : string :=
  if String.eqb k "constructor" then "Object" else k.

(** [Number.isNaN]: NaN is the one double unordered with itself. *)
Definition isNaN (x : number) : bool :=
  match num_compare x x with None => true | Some _ => false end.

(** [a === b] *)
Definition strictEq (a b : value) : bool :=
  match a, b with
  | VUndefined, VUndefined => true
  | VNull, VNull => true
  | VBool x, VBool y => Bool.eqb x y
  | VNum x, VNum y => match num_compare x y with Some Eq => true | _ => false end
  | VStr s, VStr t => String.eqb s t
  | VInherited j, VInherited k => String.eqb j k
  | _, _ => false
  end.

(** [String(v)]; [r.__proto__] is [Object.prototype], an object that is
    not a function and prints as every plain object does. *)
Definition ToString (v : value) : string :=
  match v with
  | VUndefined => "undefined"
  | VNull => "null"
  | VBool true => "true"
  | VBool false => "false"
  | VNum x => String_of_number x
  | VStr s => s
  | VInherited k =>
      if String.eqb k "__proto__" then "[object Object]"
      else String_of_function (functionName k)
  end.

(** [r?.[k]]: rows are objects here ([loadCsv] keeps nothing else), so
    the optional chaining never short-circuits.  A record is a plain
    object: the key is looked up among its own columns, then in
    [Object.prototype]. *)
Definition get (r : gmap string value) (k : string) : value :=
  match r !! k with
  | Some v => v
  | None => if bool_decide (k ∈ inherited) then VInherited k else VUndefined
  end.

(** [v === undefined || v === null] *)
Definition nullish (v : value) : bool :=
  match v with VUndefined | VNull => true | _ => false end.

(** [v === undefined || v === null || v === ""] *)
Definition absent (v : value) : bool :=
  match v with
  | VUndefined | VNull => true
  | VStr s => Str.isEmpty s
  | _ => false
  end.

(** [toNumberMaybe]; [None] is the [null] it returns. *)
Definition toNumberMaybe (v : value) : option number :=
  match v with
  | VNum x => Some x
  | VStr s =>
      if negb (Str.isEmpty (Str.trim s)) && negb (isNaN (Number_of_string s))
      then Some (Number_of_string s)
      else None
  | _ => None
  end.

(** A canvas element: its [data-*] attributes and whether
    [getContext("2d")] yields a context. *)
Record canvas := Canvas {
  dataset : gmap string string;
  context2d : bool;
}.

(** [if (a)] on an attribute. *)
Definition truthy (a : option string) : bool :=
  match a with Some s => negb (Str.isEmpty s) | None => false end.

(** [a || d] on an attribute. *)
Definition orElse (a : option string) (d : string) : string :=
  if truthy a then default d a else d.

(** The sign [sort] reads off [a - b]: the difference of two doubles has
    the sign of their comparison, it is NaN when they are unordered or
    the same infinity, and SortCompare reads NaN as [+0]. *)
Definition sub_sign (a b : number) : comparison :=
  match num_compare a b with Some c => c | None => Eq end.

(** The comparator handed to [out.sort]; [Lt], [Eq], [Gt] for a negative,
    zero and positive result. *)
Definition compareRows (sortCol sortDir : string) (a b : gmap string value)
  : comparison :=
  let avRaw := get a sortCol in
  let bvRaw := get b sortCol in
  if strictEq avRaw bvRaw then Eq
  else if absent avRaw then Gt
  else if absent bvRaw then Lt
  else
    match toNumberMaybe avRaw, toNumberMaybe bvRaw with
    | Some avNum, Some bvNum =>
        if String.eqb sortDir "asc" then sub_sign avNum bvNum
        else sub_sign bvNum avNum
    | _, _ =>
        let avStr := ToString avRaw in
        let bvStr := ToString bvRaw in
        if String.eqb sortDir "asc" then localeCompare avStr bvStr
        else localeCompare bvStr avStr
    end.

Definition sortDirOf (c : canvas) : string :=
  Str.toLowerCase (orElse (dataset c !! "sortDir") "desc").

Definition limitOf (c : canvas) : option Z :=
  Str.parseInt (orElse (dataset c !! "limit") "0").

(** [applySortLimit], on the contents of the arrays. *)
Definition applySortLimit (rows : list (gmap string value)) (c : canvas)
  : list (gmap string value) :=
  let sortCol := dataset c !! "sortCol" in
  let sortDir := sortDirOf c in
  let limit := limitOf c in
  let out := rows in
  let out :=
    if truthy sortCol
    then sort (compareRows (default "" sortCol) sortDir) out
    else out in
  match limit with
  | Some n => if 0 <? n then take (Z.to_nat n) out else out
  | None => out
  end.

(** [labelTeamSeason]; [seasonCol] is [None] for [null]. *)
Definition labelTeamSeason (row : gmap string value) (labelCol : string)
    (seasonCol : option string) : string :=
  let team := get row labelCol in
  let season := if truthy seasonCol then get row (default "" seasonCol) else VNull in
  let teamText := if nullish team then "" else ToString team in
  let seasonText := if absent season then "" else ToString season in
  if Str.isEmpty seasonText then teamText
  else teamText +:+ " (" +:+ seasonText +:+ ")".

End Pipeline.

(** ** Arrays as references: [applySortLimit] on the store *)

(** [rows.slice()] allocates a new array, [out.sort(...)] sorts the array
    [out] refers to in place, [out.slice(0, limit)] allocates again.  The
    rows themselves are never written. *)
Module Store.
Section Store.
Context `{Engine}.

(** A reference is a [nat]; the contents of the array at [a]. *)
Definition readArr (h : gmap nat (list (gmap string value))) (a : nat)
  : list (gmap string value) :=
  default [] (h !! a).

(** [a.slice(start, end)]; [end] is [None] when omitted. *)
Definition slice (a : nat) (start : nat) (end_ : option nat)
    (h : gmap nat (list (gmap string value)))
  : nat * gmap nat (list (gmap string value)) :=
  let src := drop start (readArr h a) in
  let content :=
    match end_ with
    | Some e => take (e - start)%nat src
    | None => src
    end in
  let l := fresh (dom h) in
  (l, <[l := content]> h).

(** [a.sort(cmp)] *)
Definition sortArr (cmp : gmap string value -> gmap string value -> comparison)
    (a : nat) (h : gmap nat (list (gmap string value)))
  : gmap nat (list (gmap string value)) :=
  alter (sort cmp) a h.

Definition applySortLimit (rows : nat) (c : canvas)
    (h : gmap nat (list (gmap string value)))
  : nat * gmap nat (list (gmap string value)) :=
  let sortCol := dataset c !! "sortCol" in
  let sortDir := sortDirOf c in
  let limit := limitOf c in
  let '(out, h) := slice rows 0 None h in
  let h :=
    if truthy sortCol
    then sortArr (compareRows (default "" sortCol) sortDir) out h
    else h in
  match limit with
  | Some n => if 0 <? n then slice out 0 (Some (Z.to_nat n)) h else (out, h)
  | None => (out, h)
  end.

End Store.
End Store.

(** ** Builders: traces and errors *)

Inductive exn :=
| Error (message : string)
| TypeError (message : string).

Inductive outcome (A : Type) :=
| Returned (a : A)
| Thrown (e : exn).
Arguments Returned {A} a.
Arguments Thrown {A} e.

(** The response of [fetch]: [res.ok] is a status from 200 to 299. *)
Record response := Response {
  status : N;
  text : string;
}.

Definition ok (res : response) : bool :=
  ((200 <=? status res) && (status res <=? 299))%N.

Section Builders.
Context `{Engine}.

(** A point or a cell handed to Chart.js as a datum. *)
Inductive datum :=
| DVal (v : value)
| DPoint (x y : value)
| DPointLit (x y : Z).

Record series := Series {
  label : value;
  data : list datum;
}.

(** The configuration given to [new Chart]: its kind, title, labels
    ([None] when the configuration has none) and series.  Colours, axes
    and tooltips are left out. *)
Record chart := Chart {
  type : string;
  title : string;
  labels : option (list value);
  datasets : list series;
}.

Inductive event :=
| Fetch (url : string)
| NewChart (cfg : chart).

(** An element of [parsed.data]: an object, or anything else. *)
Inductive item :=
| ItemObj (r : gmap string value)
| ItemOther (v : value).

(** The network and the CSV parser: [fetch] is [None] when the promise
    rejects; [Papa_parse] is [parsed.data], [None] when it is not an
    array. *)
Record world := World {
  fetch : string -> option response;
  Papa_parse : string -> option (list item);
}.

Definition M (A : Type) : Type := list event -> outcome A * list event.

Definition ret {A} (a : A) : M A := fun tr => (Returned a, tr).

Definition bind {A B} (m : M A) (k : A -> M B) : M B :=
  fun tr =>
    match m tr with
    | (Returned a, tr') => k a tr'
    | (Thrown e, tr') => (Thrown e, tr')
    end.

Definition throw {A} (e : exn) : M A := fun tr => (Thrown e, tr).

Definition emit (ev : event) : M unit := fun tr => (Returned tt, (tr ++ [ev])%list).

Fixpoint mapM {A B} (f : A -> M B) (l : list A) : M (list B) :=
  match l with
  | [] => ret []
  | x :: l' => bind (f x) (fun y => bind (mapM f l') (fun ys => ret (y :: ys)))
  end.

End Builders.

Notation "'let*' x ':=' m 'in' k" := (bind m (fun x => k))
  (at level 10, x pattern, m at level 100, k at level 200).
Notation "m ';;' k" := (bind m (fun _ => k))
  (at level 100, k at level 200, right associativity).

Section Charts.
Context `{Engine}.

(** [await fetch(url, ...)]: the request is recorded; a rejected promise
    throws. *)
Definition doFetch (w : world) (url : string) : M response :=
  emit (Fetch url);;
  match fetch w url with
  | Some res => ret res
  | None => throw (TypeError "Failed to fetch")
  end.

(** [r && typeof r === "object" && Object.keys(r).length > 0] *)
Definition keepRow (r : item) : option (gmap string value) :=
  match r with
  | ItemObj o => if (0 <? size o)%nat then Some o else None
  | ItemOther _ => None
  end.

Definition loadCsv (w : world) (url : option string)
  : M (list (gmap string value)) :=
  if negb (truthy url) then throw (Error "Missing data-csv attribute on canvas.")
  else
    let url := default "" url in
    let* res := doFetch w url in
    if negb (ok res)
    then throw (Error ("CSV not found: " +:+ url +:+ " (" +:+ Str.ofN (status res) +:+ ")"))
    else
      let rows := default [] (Papa_parse w (text res)) in
      ret (omap keepRow rows).

(** [!canvas.dataset[k] || canvas.dataset[k].trim?.() === ""] *)
Definition isMissing (c : canvas) (k : string) : bool :=
  negb (truthy (dataset c !! k))
  || Str.isEmpty (Str.trim (default "" (dataset c !! k))).

Definition dataAttr (k : string) : string := "data-" +:+ Str.kebab k.

Definition ensureRequired (c : canvas) (keys : list string) : M unit :=
  let missing := List.filter (isMissing c) keys in
  if (0 <? length missing)%nat
  then throw (Error ("Canvas is missing required data-* attributes: "
                     +:+ Str.join ", " (map dataAttr missing)))
  else ret tt.

(** A property key read from an attribute: [r[undefined]] reads the key
    ["undefined"]. *)
Definition key (a : option string) : string := default "undefined" a.

(** [seasonCol || null] after [canvas.dataset.seasonCol || ""] *)
Definition seasonColOf (c : canvas) : option string :=
  let seasonCol := orElse (dataset c !! "seasonCol") "" in
  if Str.isEmpty seasonCol then None else Some seasonCol.

(** [const ctx = get2dContext(canvas); if (!ctx) return; new Chart(ctx, cfg)] *)
Definition draw (c : canvas) (cfg : chart) : M unit :=
  if context2d c then emit (NewChart cfg) else ret tt.

Definition buildWinsLosses (w : world) (c : canvas) : M unit :=
  ensureRequired c ["csv"; "labelCol"; "winsCol"; "lossesCol"];;
  let* rowsRaw := loadCsv w (dataset c !! "csv") in
  let rows := applySortLimit rowsRaw c in
  let labelCol := key (dataset c !! "labelCol") in
  let winsCol := key (dataset c !! "winsCol") in
  let lossesCol := key (dataset c !! "lossesCol") in
  let winsLabel := orElse (dataset c !! "winsLabel") "Wins" in
  let lossesLabel := orElse (dataset c !! "lossesLabel") "Losses" in
  let title := orElse (dataset c !! "title") "" in
  let labels := map (fun r => VStr (labelTeamSeason r labelCol (seasonColOf c))) rows in
  let wins := map (fun r => DVal (get r winsCol)) rows in
  let losses := map (fun r => DVal (get r lossesCol)) rows in
  draw c (Chart "bar" title (Some labels)
            [Series (VStr winsLabel) wins; Series (VStr lossesLabel) losses]).

Definition buildBar (w : world) (c : canvas) : M unit :=
  ensureRequired c ["csv"; "labelCol"; "yCol"];;
  let* rowsRaw := loadCsv w (dataset c !! "csv") in
  let rows := applySortLimit rowsRaw c in
  let labelCol := key (dataset c !! "labelCol") in
  let yCol := key (dataset c !! "yCol") in
  let yLabel := orElse (dataset c !! "yLabel") yCol in
  let title := orElse (dataset c !! "title") "" in
  let labels := map (fun r => VStr (labelTeamSeason r labelCol (seasonColOf c))) rows in
  let vals := map (fun r => DVal (get r yCol)) rows in
  draw c (Chart "bar" title (Some labels) [Series (VStr yLabel) vals]).

Definition buildSimpleBar (w : world) (c : canvas) : M unit :=
  ensureRequired c ["csv"; "labelCol"; "yCol"];;
  let* rowsRaw := loadCsv w (dataset c !! "csv") in
  let rows := applySortLimit rowsRaw c in
  let labelCol := key (dataset c !! "labelCol") in
  let yCol := key (dataset c !! "yCol") in
  let yLabel := orElse (dataset c !! "yLabel") yCol in
  let title := orElse (dataset c !! "title") "" in
  let labels := map (fun r => get r labelCol) rows in
  let vals := map (fun r => DVal (get r yCol)) rows in
  draw c (Chart "bar" title (Some labels) [Series (VStr yLabel) vals]).

Definition metrics : list string :=
  ["ACCURACY"; "PRECISION"; "RECALL"; "F1_SCORE"; "ROC_AUC"].

Definition metricLabels : list string :=
  ["Accuracy"; "Precision"; "Recall"; "F1-Score"; "ROC-AUC"].

(** [rows[i][m]] for every metric [m]: reading a property of
    [undefined] throws. *)
Definition metricsOfRow (rows : list (gmap string value)) (i : nat)
  : M (list datum) :=
  match rows !! i with
  | Some r => ret (map (fun m => DVal (get r m)) metrics)
  | None => throw (TypeError "Cannot read properties of undefined")
  end.

Definition buildModelComparison (w : world) (c : canvas) : M unit :=
  ensureRequired c ["csv"];;
  let* rows := loadCsv w (dataset c !! "csv") in
  let title := orElse (dataset c !! "title") "" in
  let models := map (fun r => get r "MODEL") rows in
  let* datasets :=
    mapM (fun '(i, model) =>
            let* d := metricsOfRow rows i in ret (Series model d))
         (imap pair models) in
  draw c (Chart "bar" title (Some (map VStr metricLabels)) datasets).

Definition modelNames : list string :=
  ["Logistic Regression (AUC=0.842)"; "Random Forest (AUC=0.839)";
   "XGBoost (AUC=0.841)"].

Definition tprCols : list string := ["TPR_LR"; "TPR_RF"; "TPR_XGB"].

Definition buildRocCurves (w : world) (c : canvas) : M unit :=
  ensureRequired c ["csv"];;
  let* rows := loadCsv w (dataset c !! "csv") in
  let title := orElse (dataset c !! "title") "" in
  let datasets :=
    imap (fun i col =>
            Series (from_option VStr VUndefined (modelNames !! i))
                   (map (fun r => DPoint (get r "FPR") (get r col)) rows))
         tprCols in
  let datasets :=
    (datasets ++ [Series (VStr "Random Classifier")
                         [DPointLit 0 0; DPointLit 1 1]])%list in
  draw c (Chart "line" title None datasets).

Definition buildHorizontalBar (w : world) (c : canvas) : M unit :=
  ensureRequired c ["csv"; "labelCol"; "yCol"];;
  let* rowsRaw := loadCsv w (dataset c !! "csv") in
  let rows := applySortLimit rowsRaw c in
  let labelCol := key (dataset c !! "labelCol") in
  let yCol := key (dataset c !! "yCol") in
  let title := orElse (dataset c !! "title") "" in
  let labels := map (fun r => get r labelCol) rows in
  let vals := map (fun r => DVal (get r yCol)) rows in
  draw c (Chart "bar" title (Some labels) [Series (VStr "Importance") vals]).

(** The value of [data-chart], which picks the builder. *)
Inductive chartKind :=
| WinsLosses | Bar | SimpleBar | ModelComparison | RocCurves | HorizontalBar.

Definition build (k : chartKind) : world -> canvas -> M unit :=
  match k with
  | WinsLosses => buildWinsLosses
  | Bar => buildBar
  | SimpleBar => buildSimpleBar
  | ModelComparison => buildModelComparison
  | RocCurves => buildRocCurves
  | HorizontalBar => buildHorizontalBar
  end.

(** The keys each builder passes to [ensureRequired]. *)
Definition required (k : chartKind) : list string :=
  match k with
  | WinsLosses => ["csv"; "labelCol"; "winsCol"; "lossesCol"]
  | Bar | SimpleBar | HorizontalBar => ["csv"; "labelCol"; "yCol"]
  | ModelComparison | RocCurves => ["csv"]
  end.

End Charts.

(** ** Vocabulary of the statements *)

Section Vocabulary.
Context `{Engine}.

(** The comparator on the two cells it reads. *)
Definition compareValues (sortDir : string) (avRaw bvRaw : value) : comparison :=
  if strictEq avRaw bvRaw then Eq
  else if absent avRaw then Gt
  else if absent bvRaw then Lt
  else
    match toNumberMaybe avRaw, toNumberMaybe bvRaw with
    | Some avNum, Some bvNum =>
        if String.eqb sortDir "asc" then sub_sign avNum bvNum
        else sub_sign bvNum avNum
    | _, _ =>
        if String.eqb sortDir "asc"
        then localeCompare (ToString avRaw) (ToString bvRaw)
        else localeCompare (ToString bvRaw) (ToString avRaw)
    end.

(** A cell that coerces to a number other than NaN. *)
Definition numeric (v : value) : bool :=
  match toNumberMaybe v with Some x => negb (isNaN x) | None => false end.

(** A cell that does not coerce to a number. *)
Definition textual (v : value) : bool :=
  match toNumberMaybe v with Some _ => false | None => true end.

(** The ascending order on present cells: by number when both coerce to
    one, by their text otherwise. *)
Definition value_le (a b : value) : Prop :=
  match toNumberMaybe a, toNumberMaybe b with
  | Some x, Some y => num_compare x y = Some Lt \/ num_compare x y = Some Eq
  | _, _ => localeCompare (ToString a) (ToString b) <> Gt
  end.

(** Every present cell of the column is numeric, or every one textual. *)
Definition numericCol (col : string) (rows : list (gmap string value)) : Prop :=
  Forall (fun r => absent (get r col) = false -> numeric (get r col) = true) rows.

Definition textCol (col : string) (rows : list (gmap string value)) : Prop :=
  Forall (fun r => absent (get r col) = false -> textual (get r col) = true) rows.

(** The array as [applySortLimit] has it before the limit is applied. *)
Definition sortedRows (rows : list (gmap string value)) (c : canvas)
  : list (gmap string value) :=
  if truthy (dataset c !! "sortCol")
  then sort (compareRows (default "" (dataset c !! "sortCol")) (sortDirOf c)) rows
  else rows.





(** The canvas with its [data-limit] attribute removed. *)
Definition withoutLimit (c : canvas) : canvas :=
  Canvas (delete "limit" (dataset c)) (context2d c).

(** Text with something besides white space that [Number] reads, in
    full, as a number. *)
Definition parsesAsNumber (s : string) : Prop :=
  Str.trim s <> "" /\ isNaN (Number_of_string s) = false.

(** The attribute [key] is absent or empty. *)
Definition missingAttr (c : canvas) (key : string) : Prop :=
  dataset c !! key = None \/ dataset c !! key = Some "".

(** The canvas with the attribute [key] set to [v], and with it removed. *)
Definition setAttr (c : canvas) (key v : string) : canvas :=
  Canvas (<[key := v]> (dataset c)) (context2d c).

Definition removeAttr (c : canvas) (key : string) : canvas :=
  Canvas (delete key (dataset c)) (context2d c).


End Vocabulary.

(** The messages of the two errors [loadCsv] throws. *)
Definition missingUrlMessage : string := "Missing data-csv attribute on canvas.".

Definition notFoundMessage (url : string) (st : N) : string :=
  "CSV not found: " +:+ url +:+ " (" +:+ Str.ofN st +:+ ")".

(** The characters of a string. *)
Fixpoint chars (s : string) : list ascii :=
  match s with
  | String ch s' => ch :: chars s'
  | EmptyString => []
  end.

(** Text made of white space only. *)
Fixpoint allWhiteSpace (s : string) : bool :=
  match s with
  | String ch s' => Str.isWhiteSpace ch && allWhiteSpace s'
  | EmptyString => true
  end.

(** ** Sorting by insertion *)

(** The sort the contract is measured against: [x] goes before the first
    element it is not greater than, so elements that compare equal keep
    their order. *)
Fixpoint sortInsert {A} (cmp : A -> A -> comparison) (x : A) (l : list A)
  : list A :=
  match l with
  | [] => [x]
  | y :: l' =>
      match cmp x y with
      | Gt => y :: sortInsert cmp x l'
      | _ => x :: l
      end
  end.

Fixpoint insertionSort {A} (cmp : A -> A -> comparison) (l : list A) : list A :=
  match l with
  | [] => []
  | x :: l' => sortInsert cmp x (insertionSort cmp l')
  end.

Section InsertionSort.
Context {A : Type} (cmp : A -> A -> comparison).

Lemma sortInsert_perm x l : sortInsert cmp x l ≡ₚ x :: l.
Proof.
  induction l as [|y l IH]; simpl; [done|].
  destruct (cmp x y); try done.
  rewrite IH. apply Permutation_swap.
Qed.

Lemma insertionSort_perm l : insertionSort cmp l ≡ₚ l.
Proof.
  induction l as [|x l IH]; simpl; [done|].
  by rewrite sortInsert_perm, IH.
Qed.

Lemma insertionSort_elem_of x l : x ∈ insertionSort cmp l <-> x ∈ l.
Proof. by rewrite insertionSort_perm. Qed.

(** An element never moves past one it is not greater than: the elements
    picked by [P] keep their order when none of them is greater than a
    later one. *)
Lemma sortInsert_filter (P : A -> bool) x l :
  (forall z, z ∈ l -> P x = true -> P z = true -> cmp x z <> Gt) ->
  List.filter P (sortInsert cmp x l) = List.filter P (x :: l).
Proof.
  induction l as [|y l IH]; intros Hle; [done|].
  simpl. destruct (cmp x y) eqn:Hxy; try done.
  simpl. rewrite IH by (intros z Hz; apply Hle; by right).
  simpl. destruct (P x) eqn:Px, (P y) eqn:Py; try done.
  exfalso. apply (Hle y); [by left|done..].
Qed.

Lemma insertionSort_filter (P : A -> bool) l :
  (forall a b, a ∈ l -> b ∈ l -> P a = true -> P b = true -> cmp a b <> Gt) ->
  List.filter P (insertionSort cmp l) = List.filter P l.
Proof.
  induction l as [|x l IH]; intros Hle; [done|].
  simpl insertionSort. rewrite sortInsert_filter.
  - simpl. rewrite IH; [done|].
    intros a b Ha Hb. apply Hle; by right.
  - intros z Hz. apply Hle; [by left|]. right. by apply insertionSort_elem_of.
Qed.

(** The sort establishes any relation [R] that the comparator decides on
    the elements at hand ([Q] holds of them) and that composes with a
    step of the comparator. *)
Lemma sortInsert_sorted (R : A -> A -> Prop) (Q : A -> Prop) x l :
  (forall a b, Q a -> Q b -> cmp a b = Gt -> R b a) ->
  (forall a b, Q a -> Q b -> cmp a b <> Gt -> R a b) ->
  (forall a b c, Q a -> Q b -> Q c -> cmp a b <> Gt -> R b c -> R a c) ->
  Q x -> Forall Q l ->
  StronglySorted R l -> StronglySorted R (sortInsert cmp x l).
Proof.
  intros Hgt Hle Hstep Qx.
  induction l as [|y l IH]; intros Ql Hs; simpl.
  - repeat constructor.
  - apply Forall_cons in Ql as [Qy Ql].
    apply StronglySorted_inv in Hs as [Hs Hy].
    assert (Hstop : cmp x y <> Gt -> StronglySorted R (x :: y :: l)).
    { intros Hxy. constructor; [by constructor|].
      constructor; [by apply Hle|].
      rewrite Forall_forall in Hy, Ql. apply Forall_forall. intros w Hw.
      apply (Hstep x y w); auto. }
    destruct (cmp x y) eqn:Hxy; try (apply Hstop; congruence).
    constructor; [by apply IH|].
    rewrite sortInsert_perm. constructor; [by apply Hgt|done].
Qed.

Lemma insertionSort_sorted (R : A -> A -> Prop) (Q : A -> Prop) l :
  (forall a b, Q a -> Q b -> cmp a b = Gt -> R b a) ->
  (forall a b, Q a -> Q b -> cmp a b <> Gt -> R a b) ->
  (forall a b c, Q a -> Q b -> Q c -> cmp a b <> Gt -> R b c -> R a c) ->
  Forall Q l -> StronglySorted R (insertionSort cmp l).
Proof.
  intros Hgt Hle Hstep. induction l as [|x l IH]; intros Ql; simpl.
  - constructor.
  - apply Forall_cons in Ql as [Qx Ql].
    apply sortInsert_sorted with (Q := Q); auto.
    by rewrite insertionSort_perm.
Qed.

(** A sorted list is left as it is. *)
Lemma insertionSort_sorted_id l :
  StronglySorted (fun x y => cmp x y <> Gt) l -> insertionSort cmp l = l.
Proof.
  induction 1 as [|x l Hs IH Hx]; simpl; [done|]. rewrite IH.
  destruct l as [|y l]; [done|]. simpl.
  apply Forall_cons in Hx as [Hxy _]. by destruct (cmp x y).
Qed.

(** An element greater than all the others goes to the end. *)
Lemma sortInsert_last x l :
  Forall (fun y => cmp x y = Gt) l -> sortInsert cmp x l = (l ++ [x])%list.
Proof.
  induction 1 as [|y l Hy Hl IH]; simpl; [done|]. by rewrite Hy, IH.
Qed.

End InsertionSort.

Lemma insertionSort_ext {A} (cmp1 cmp2 : A -> A -> comparison) l :
  (forall a b, cmp1 a b = cmp2 a b) -> insertionSort cmp1 l = insertionSort cmp2 l.
Proof.
  intros Hext. induction l as [|x l IH]; simpl; [done|].
  rewrite IH. generalize (insertionSort cmp2 l). intros s.
  induction s as [|y s IHs]; simpl; [done|].
  by rewrite Hext, IHs.
Qed.

Section Canonical.
Context {A : Type} (cmp : A -> A -> comparison) (Q : A -> Prop).

(** A comparator that is consistent on the elements [Q] holds of. *)
Hypothesis cmp_antisym : forall x y, Q x -> Q y -> cmp y x = CompOpp (cmp x y).
Hypothesis cmp_trans : forall x y z, Q x -> Q y -> Q z ->
  cmp x y <> Gt -> cmp y z <> Gt -> cmp x z <> Gt.

Lemma cmp_refl x : Q x -> cmp x x = Eq.
Proof.
  intros Qx. pose proof (cmp_antisym x x Qx Qx) as Ha.
  by destruct (cmp x x).
Qed.

Lemma tie_refl x : Q x -> tie cmp x x = true.
Proof. intros Qx. unfold tie. by rewrite cmp_refl. Qed.

Lemma tie_le x y : Q x -> Q y -> cmp x y <> Gt -> cmp y x <> Gt -> tie cmp x y = true.
Proof.
  intros Qx Qy Hxy Hyx. unfold tie. rewrite (cmp_antisym x y Qx Qy) in Hyx.
  by destruct (cmp x y).
Qed.

(** Below something that is not above: below. *)
Lemma cmp_lt_le x y z :
  Q x -> Q y -> Q z -> cmp x y = Lt -> cmp y z <> Gt -> cmp x z = Lt.
Proof.
  intros Qx Qy Qz Hxy Hyz.
  assert (Hxz : cmp x z <> Gt) by (apply (cmp_trans x y z); auto; congruence).
  destruct (cmp x z) eqn:E; try done. exfalso.
  assert (Hzx : cmp z x <> Gt) by (rewrite (cmp_antisym x z), E; done).
  assert (Hyx : cmp y x <> Gt) by (apply (cmp_trans y z x); auto).
  rewrite (cmp_antisym x y), Hxy in Hyx; done.
Qed.

Lemma cmp_le_lt x y z :
  Q x -> Q y -> Q z -> cmp x y <> Gt -> cmp y z = Lt -> cmp x z = Lt.
Proof.
  intros Qx Qy Qz Hxy Hyz.
  assert (Hxz : cmp x z <> Gt) by (apply (cmp_trans x y z); auto; congruence).
  destruct (cmp x z) eqn:E; try done. exfalso.
  assert (Hzx : cmp z x <> Gt) by (rewrite (cmp_antisym x z), E; done).
  assert (Hzy : cmp z y <> Gt) by (apply (cmp_trans z x y); auto).
  rewrite (cmp_antisym y z), Hyz in Hzy; done.
Qed.

(** Ties are transitive. *)
Lemma tie_trans x y z :
  Q x -> Q y -> Q z -> tie cmp x y = true -> tie cmp y z = true -> tie cmp x z = true.
Proof.
  unfold tie. intros Qx Qy Qz Hxy Hyz.
  destruct (cmp x y) eqn:Exy; try done. destruct (cmp y z) eqn:Eyz; try done.
  assert (Hxz : cmp x z <> Gt) by (apply (cmp_trans x y z); auto; congruence).
  assert (Hzx : cmp z x <> Gt).
  { apply (cmp_trans z y x); auto.
    - rewrite (cmp_antisym y z), Eyz; done.
    - rewrite (cmp_antisym x y), Exy; done. }
  rewrite (cmp_antisym x z) in Hzx by done. by destruct (cmp x z).
Qed.

Lemma tie_sym x y : Q x -> Q y -> tie cmp x y = tie cmp y x.
Proof.
  intros Qx Qy. unfold tie. rewrite (cmp_antisym x y) by done.
  by destruct (cmp x y).
Qed.

(** Two sorted lists with the same elements in each class of ties, in the
    same order, are the same list. *)
Lemma sorted_stable_unique l1 l2 :
  Forall Q l1 -> Forall Q l2 ->
  StronglySorted (fun x y => cmp x y <> Gt) l1 ->
  StronglySorted (fun x y => cmp x y <> Gt) l2 ->
  (forall x, Q x -> List.filter (tie cmp x) l1 = List.filter (tie cmp x) l2) ->
  l1 = l2.
Proof.
  revert l2. induction l1 as [|x l1 IH]; intros l2 Q1 Q2 S1 S2 Hcls.
  - destruct l2 as [|y l2]; [done|].
    apply Forall_cons in Q2 as [Qy _]. specialize (Hcls y Qy).
    simpl in Hcls. by rewrite (tie_refl y Qy) in Hcls.
  - apply Forall_cons in Q1 as [Qx Q1].
    destruct l2 as [|y l2].
    { specialize (Hcls x Qx). simpl in Hcls.
      by rewrite (tie_refl x Qx) in Hcls. }
    apply Forall_cons in Q2 as [Qy Q2].
    apply StronglySorted_inv in S1 as [S1 Hx], S2 as [S2 Hy].
    rewrite Forall_forall in Hx, Hy.
    assert (Hin : forall a l l', Q a ->
              List.filter (tie cmp a) l = List.filter (tie cmp a) l' -> a ∈ l -> a ∈ l').
    { intros a l l' Qa Heq Ha. apply list_elem_of_In.
      apply (List.filter_In (tie cmp a) a l'). rewrite <- Heq.
      apply List.filter_In. split; [by apply list_elem_of_In|].
      by apply tie_refl. }
    assert (Hxy : cmp x y <> Gt).
    { assert (Hy2 : y ∈ x :: l1)
        by (apply (Hin y (y :: l2)); [done|by rewrite Hcls|by left]).
      apply elem_of_cons in Hy2 as [->|Hy2]; [by rewrite cmp_refl|by apply Hx]. }
    assert (Hyx : cmp y x <> Gt).
    { assert (Hx2 : x ∈ y :: l2)
        by (apply (Hin x (x :: l1)); [done|by rewrite Hcls|by left]).
      apply elem_of_cons in Hx2 as [->|Hx2]; [by rewrite cmp_refl|by apply Hy]. }
    assert (x = y) as <-.
    { pose proof (Hcls x Qx) as Hc. simpl in Hc.
      rewrite (tie_refl x Qx), (tie_le x y Qx Qy Hxy Hyx) in Hc.
      by injection Hc. }
    f_equal. apply IH; try done.
    intros z Qz. specialize (Hcls z Qz). simpl in Hcls.
    destruct (tie cmp z x); [by injection Hcls|done].
Qed.

(** On a consistent comparator the result of [Array.prototype.sort] is
    determined: any permutation of the input that is sorted and keeps ties
    in their input order is the list the insertion sort returns. *)
Lemma sort_canonical l l' :
  Forall Q l -> l' ≡ₚ l ->
  StronglySorted (fun x y => cmp x y <> Gt) l' ->
  (forall x, Q x -> List.filter (tie cmp x) l' = List.filter (tie cmp x) l) ->
  l' = insertionSort cmp l.
Proof.
  intros Ql Hperm Hsorted Hstable.
  apply sorted_stable_unique; try done.
  - by rewrite Hperm.
  - by rewrite insertionSort_perm.
  - apply insertionSort_sorted with (Q := Q); try done.
    intros a b Qa Qb Hgt. rewrite (cmp_antisym a b Qa Qb), Hgt. done.
  - intros x Qx. rewrite Hstable by done. symmetry. apply insertionSort_filter.
    intros a b Ha Hb Ta Tb. rewrite Forall_forall in Ql.
    unfold tie in Ta, Tb.
    assert (Hax : cmp a x <> Gt).
    { rewrite (cmp_antisym x a Qx (Ql a Ha)). by destruct (cmp x a). }
    apply (cmp_trans a x b); auto. by destruct (cmp x b).
Qed.

End Canonical.

Section ConsistentComparator.
Context {A : Type} (cmp : A -> A -> comparison).

Lemma consistent_antisym l x y :
  consistent cmp l -> x ∈ l -> y ∈ l -> cmp y x = CompOpp (cmp x y).
Proof.
  intros (Hrefl & Hsym & _ & Hlt & Hgt) Hx Hy.
  destruct (cmp x y) eqn:Exy, (cmp y x) eqn:Eyx; simpl; try done; exfalso.
  - pose proof (Hsym x y Hx Hy Exy). congruence.
  - pose proof (Hsym x y Hx Hy Exy). congruence.
  - pose proof (Hsym y x Hy Hx Eyx). congruence.
  - pose proof (Hlt x y x Hx Hy Hx Exy Eyx). pose proof (Hrefl x Hx). congruence.
  - pose proof (Hsym y x Hy Hx Eyx). congruence.
  - pose proof (Hgt x y x Hx Hy Hx Exy Eyx). pose proof (Hrefl x Hx). congruence.
Qed.

Lemma consistent_trans l x y z :
  consistent cmp l -> x ∈ l -> y ∈ l -> z ∈ l ->
  cmp x y <> Gt -> cmp y z <> Gt -> cmp x z <> Gt.
Proof.
  intros Hc Hx Hy Hz Hxy Hyz Hxz.
  pose proof (consistent_antisym l x z Hc Hx Hz) as Hzx. rewrite Hxz in Hzx.
  simpl in Hzx.
  destruct Hc as (Hrefl & Hsym & Heq & Hlt & Hgt).
  destruct (cmp x y) eqn:Exy, (cmp y z) eqn:Eyz; try done.
  - pose proof (Heq x y z Hx Hy Hz Exy Eyz). congruence.
  - pose proof (Hlt y z x Hy Hz Hx Eyz Hzx) as Hyx.
    pose proof (Hsym x y Hx Hy Exy). congruence.
  - pose proof (Hlt z x y Hz Hx Hy Hzx Exy) as Hzy.
    pose proof (Hsym y z Hy Hz Eyz). congruence.
  - pose proof (Hlt x y z Hx Hy Hz Exy Eyz). congruence.
Qed.

(** A comparator that is antisymmetric and transitive on the elements of
    [l] is consistent for them. *)
Lemma consistent_intro l :
  (forall x y, x ∈ l -> y ∈ l -> cmp y x = CompOpp (cmp x y)) ->
  (forall x y z, x ∈ l -> y ∈ l -> z ∈ l ->
     cmp x y <> Gt -> cmp y z <> Gt -> cmp x z <> Gt) ->
  consistent cmp l.
Proof.
  intros Hanti Htrans.
  assert (Hrefl : forall a, a ∈ l -> cmp a a = Eq).
  { intros a Ha. by apply (cmp_refl cmp (fun x => x ∈ l)). }
  assert (Hsym : forall a b, a ∈ l -> b ∈ l -> cmp a b = Eq -> cmp b a = Eq).
  { intros a b Ha Hb Hab. by rewrite (Hanti a b), Hab. }
  assert (Hlt : forall a b c, a ∈ l -> b ∈ l -> c ∈ l ->
            cmp a b = Lt -> cmp b c = Lt -> cmp a c = Lt).
  { intros a b c Ha Hb Hc Hab Hbc.
    apply (cmp_lt_le cmp (fun x => x ∈ l) Hanti Htrans a b c); auto. congruence. }
  repeat split; auto.
  - intros a b c Ha Hb Hc Hab Hbc.
    assert (H1 : tie cmp a c = true).
    { apply (tie_trans cmp (fun x => x ∈ l) Hanti Htrans a b c); auto;
        unfold tie; by rewrite ?Hab, ?Hbc. }
    unfold tie in H1. by destruct (cmp a c).
  - intros a b c Ha Hb Hc Hab Hbc.
    assert (Hcb : cmp c b = Lt) by (by rewrite (Hanti b c), Hbc).
    assert (Hba : cmp b a = Lt) by (by rewrite (Hanti a b), Hab).
    by rewrite (Hanti c a), (Hlt c b a).
Qed.

Lemma consistent_incl l l' :
  consistent cmp l -> (forall x, x ∈ l' -> x ∈ l) -> consistent cmp l'.
Proof.
  intros (Hrefl & Hsym & Heq & Hlt & Hgt) Hin. repeat split; eauto 10.
Qed.

Lemma insertionSort_consistent_sorted l :
  consistent cmp l ->
  StronglySorted (fun x y => cmp x y <> Gt) (insertionSort cmp l).
Proof.
  intros Hc. apply insertionSort_sorted with (Q := fun x => x ∈ l).
  - intros a b Ha Hb Hgt. by rewrite (consistent_antisym l a b), Hgt.
  - done.
  - intros a b c. by apply consistent_trans.
  - by apply Forall_forall.
Qed.

Lemma insertionSort_consistent_stable l x :
  consistent cmp l -> x ∈ l ->
  List.filter (tie cmp x) (insertionSort cmp l) = List.filter (tie cmp x) l.
Proof.
  intros Hc Hx. apply insertionSort_filter. intros a b Ha Hb Ta Tb.
  assert (Hab : tie cmp a b = true).
  { apply (tie_trans cmp (fun x => x ∈ l)) with (y := x); auto.
    - intros ? ?; by apply consistent_antisym.
    - intros ? ? ?; by apply consistent_trans.
    - rewrite (tie_sym cmp (fun x => x ∈ l)); auto.
      intros ? ?; by apply consistent_antisym. }
  unfold tie in Hab. by destruct (cmp a b).
Qed.

(** With a consistent comparator, a sorted permutation that keeps ties in
    their order is what the insertion sort returns. *)
Lemma consistent_canonical l l' :
  consistent cmp l -> l' ≡ₚ l ->
  StronglySorted (fun x y => cmp x y <> Gt) l' ->
  (forall x, x ∈ l -> List.filter (tie cmp x) l' = List.filter (tie cmp x) l) ->
  l' = insertionSort cmp l.
Proof.
  intros Hc Hperm Hsorted Hstable.
  apply sort_canonical with (Q := fun x => x ∈ l); auto.
  - intros ? ?; by apply consistent_antisym.
  - intros ? ? ?; by apply consistent_trans.
  - by apply Forall_forall.
Qed.

End ConsistentComparator.

(** A strongly sorted list relates every earlier element to every later
    one, and so does each of its prefixes. *)
Lemma StronglySorted_lookup {A} (R : A -> A -> Prop) l i j a b :
  StronglySorted R l -> (i < j)%nat -> l !! i = Some a -> l !! j = Some b -> R a b.
Proof.
  intros Hs. revert i j. induction Hs as [|x l Hs IH Hx]; intros i j Hij Hi Hj.
  - by rewrite lookup_nil in Hi.
  - destruct j as [|j]; [lia|]. simpl in Hj.
    destruct i as [|i]; simpl in Hi.
    + injection Hi as <-. rewrite Forall_forall in Hx. apply Hx.
      by eapply list_elem_of_lookup_2.
    + apply (IH i j); [lia|done..].
Qed.

Lemma StronglySorted_take {A} (R : A -> A -> Prop) n l :
  StronglySorted R l -> StronglySorted R (take n l).
Proof.
  intros Hs. revert n. induction Hs as [|x l Hs IH Hx]; intros [|n]; simpl;
    try constructor; auto.
  apply Forall_take. done.
Qed.

Lemma filter_none {A} (P : A -> bool) l :
  (forall x, x ∈ l -> P x = false) -> List.filter P l = [].
Proof.
  induction l as [|x l IH]; intros Hl; simpl; [done|].
  rewrite (Hl x) by (by left). apply IH. intros y Hy. apply Hl. by right.
Qed.

(** ** Sorting as V8 does *)

(** [Array.prototype.sort] of V8 (TimSort, [third_party/v8/builtins/array-sort.tq])
    as it runs on an array of fewer than 64 elements, which it treats as a
    single run: [CountAndMakeRun] finds the run the array starts with,
    reversing it when it descends, and [BinaryInsertionSort] inserts the
    remaining elements one by one at the place a binary search finds.
    Longer arrays, which V8 cuts into several runs that it merges, are
    sorted here in the same way. *)
Module V8.
Section V8.
Context {A : Type} (cmp : A -> A -> comparison).

(** [order < 0] for [order = Compare(x, y)]. *)
Definition below (x y : A) : bool :=
  match cmp x y with Lt => true | _ => false end.

(** The loop of [CountAndMakeRun]: the elements that continue the run after
    [prev], and the rest of the array.  A descending run goes on while the
    current element is below the previous one, an ascending run while it is
    not. *)
Fixpoint spanRun (isDescending : bool) (prev : A) (l : list A) : list A * list A :=
  match l with
  | [] => ([], [])
  | cur :: l' =>
      if Bool.eqb (below cur prev) isDescending
      then let '(run, rest) := spanRun isDescending cur l' in (cur :: run, rest)
      else ([], l)
  end.

(** [CountAndMakeRun]: the first run, in ascending order, and the rest. *)
Definition countAndMakeRun (x y : A) (l : list A) : list A * list A :=
  let isDescending := below y x in
  let '(run, rest) := spanRun isDescending y l in
  let run := x :: y :: run in
  (if isDescending then rev run else run, rest).

(** The binary search of [BinaryInsertionSort] for the place of [pivot]
    between [left] and [right]; the loop runs at most [fuel] times, and
    [right - left] times is all it needs. *)
Fixpoint search (fuel : nat) (pivot : A) (l : list A) (left right : nat) : nat :=
  match fuel with
  | O => left
  | S fuel' =>
      if (left <? right)%nat then
        let mid := (left + (right - left) / 2)%nat in
        match l !! mid with
        | Some e =>
            if below pivot e then search fuel' pivot l left mid
            else search fuel' pivot l (mid + 1)%nat right
        | None => left
        end
      else left
  end.

(** One round of [BinaryInsertionSort]: [pivot] is put where the search
    stops, the elements from there on move up by one. *)
Definition insertPivot (sorted : list A) (pivot : A) : list A :=
  let left := search (length sorted) pivot sorted 0 (length sorted) in
  (take left sorted ++ pivot :: drop left sorted)%list.

Definition binaryInsertionSort (run rest : list A) : list A :=
  foldl insertPivot run rest.

Definition sort (l : list A) : list A :=
  match l with
  | x :: y :: l' =>
      let '(run, rest) := countAndMakeRun x y l' in
      binaryInsertionSort run rest
  | _ => l
  end.

(** *** It permutes *)

Lemma spanRun_app isDescending prev l :
  ((spanRun isDescending prev l).1 ++ (spanRun isDescending prev l).2)%list = l.
Proof.
  revert prev. induction l as [|cur l IH]; intros prev; simpl; [done|].
  destruct (Bool.eqb _ _); [|done].
  specialize (IH cur). destruct (spanRun isDescending cur l) as [run rest].
  simpl in *. by rewrite IH.
Qed.

Lemma insertPivot_perm sorted pivot : insertPivot sorted pivot ≡ₚ pivot :: sorted.
Proof.
  unfold insertPivot.
  rewrite <- Permutation_middle. by rewrite take_drop.
Qed.

Lemma binaryInsertionSort_perm run rest :
  binaryInsertionSort run rest ≡ₚ (run ++ rest)%list.
Proof.
  unfold binaryInsertionSort. revert run.
  induction rest as [|p rest IH]; intros run; simpl.
  - by rewrite app_nil_r.
  - rewrite IH, insertPivot_perm. simpl. apply Permutation_middle.
Qed.

Lemma sort_permutes l : sort l ≡ₚ l.
Proof.
  destruct l as [|x [|y l]]; simpl; try done.
  unfold countAndMakeRun.
  pose proof (spanRun_app (below y x) y l) as Happ.
  destruct (spanRun (below y x) y l) as [run rest]. simpl in Happ.
  rewrite binaryInsertionSort_perm.
  destruct (below y x).
  - rewrite <- Permutation_rev. simpl. by rewrite Happ.
  - simpl. by rewrite Happ.
Qed.

End V8.

(** *** It reads the comparator's results only *)

Lemma sort_reads_results {A} (cmp1 cmp2 : A -> A -> comparison) l :
  (forall a b, cmp1 a b = cmp2 a b) -> sort cmp1 l = sort cmp2 l.
Proof.
  intros Hext.
  assert (Hbelow : forall a b, below cmp1 a b = below cmp2 a b)
    by (intros a b; unfold below; by rewrite Hext).
  assert (Hspan : forall d prev l0, spanRun cmp1 d prev l0 = spanRun cmp2 d prev l0).
  { intros d prev l0. revert prev.
    induction l0 as [|cur l0 IH]; intros prev; simpl; [done|].
    by rewrite Hbelow, IH. }
  assert (Hsearch : forall fuel p s i j, search cmp1 fuel p s i j = search cmp2 fuel p s i j).
  { induction fuel as [|fuel IH]; intros p s i j; cbn [search]; [done|].
    destruct (i <? j)%nat; [|done]. destruct (s !! _); [|done].
    by rewrite Hbelow, !IH. }
  assert (Hins : forall s p, insertPivot cmp1 s p = insertPivot cmp2 s p).
  { intros s p. unfold insertPivot. by rewrite Hsearch. }
  destruct l as [|x [|y l]]; simpl; try done.
  unfold countAndMakeRun. rewrite Hbelow, Hspan.
  destruct (spanRun cmp2 (below cmp2 y x) y l) as [run rest].
  unfold binaryInsertionSort. generalize (if below cmp2 y x then rev (x :: y :: run) else x :: y :: run).
  induction rest as [|p rest IH]; intros acc; simpl; [done|].
  by rewrite Hins, IH.
Qed.

(** *** With a consistent comparator it sorts stably *)

Section V8Sorts.
Context {A : Type} (cmp : A -> A -> comparison) (Q : A -> Prop).
Hypothesis cmp_antisym : forall x y, Q x -> Q y -> cmp y x = CompOpp (cmp x y).
Hypothesis cmp_trans : forall x y z, Q x -> Q y -> Q z ->
  cmp x y <> Gt -> cmp y z <> Gt -> cmp x z <> Gt.

(** The search stops between the elements [pivot] is not below and those
    it is below. *)
Lemma search_spec fuel pivot s left right :
  Q pivot -> Forall Q s ->
  StronglySorted (fun x y => cmp x y <> Gt) s ->
  (left <= right <= length s)%nat -> (right - left <= fuel)%nat ->
  (forall j e, (j < left)%nat -> s !! j = Some e -> below cmp pivot e = false) ->
  (forall j e, (right <= j)%nat -> s !! j = Some e -> below cmp pivot e = true) ->
  let i := search cmp fuel pivot s left right in
  (i <= length s)%nat
  /\ (forall j e, (j < i)%nat -> s !! j = Some e -> below cmp pivot e = false)
  /\ (forall j e, (i <= j)%nat -> s !! j = Some e -> below cmp pivot e = true).
Proof.
  intros Qp Qs Hs. rewrite Forall_forall in Qs.
  revert left right. induction fuel as [|fuel IH]; intros left right Hlr Hfuel Hlo Hhi.
  - simpl. assert (left = right) as -> by lia. repeat split; [lia|auto..].
  - cbn [search]. destruct (Nat.ltb_spec left right) as [Hlt|Hge].
    2:{ assert (left = right) as -> by lia. repeat split; [lia|auto..]. }
    set (mid := (left + (right - left) / 2)%nat).
    assert (Hmid : (left <= mid < right)%nat).
    { unfold mid. split; [lia|].
      pose proof (Nat.div_lt (right - left) 2 ltac:(lia) ltac:(lia)). lia. }
    destruct (lookup_lt_is_Some_2 s mid ltac:(lia)) as [e He]. rewrite He.
    assert (Qe : Q e) by (apply Qs; by eapply list_elem_of_lookup_2).
    destruct (below cmp pivot e) eqn:Hb.
    + apply IH; [lia|lia|done|].
      intros j e' Hj He'. destruct (decide (j = mid)) as [->|Hne]; [congruence|].
      assert (Hee' : cmp e e' <> Gt)
        by (apply (StronglySorted_lookup _ s mid j e e' Hs); [lia|done..]).
      assert (Qe' : Q e') by (apply Qs; by eapply list_elem_of_lookup_2).
      unfold below in *. destruct (cmp pivot e) eqn:Epe; try done.
      by rewrite (cmp_lt_le cmp Q cmp_antisym cmp_trans pivot e e').
    + apply IH; [lia|lia| |done].
      intros j e' Hj He'. destruct (decide (j = mid)) as [->|Hne]; [congruence|].
      assert (He'e : cmp e' e <> Gt)
        by (apply (StronglySorted_lookup _ s j mid e' e Hs); [lia|done..]).
      assert (Qe' : Q e') by (apply Qs; by eapply list_elem_of_lookup_2).
      unfold below in *. destruct (cmp pivot e') eqn:Epe'; try done. exfalso.
      assert (cmp pivot e = Lt)
        by (by apply (cmp_lt_le cmp Q cmp_antisym cmp_trans pivot e' e)).
      by destruct (cmp pivot e).
Qed.

(** Inserting [pivot] in the stable sort of [p] gives the stable sort of
    [p] followed by [pivot]. *)
Lemma insertPivot_sorts p pivot :
  Forall Q p -> Q pivot ->
  insertPivot cmp (insertionSort cmp p) pivot = insertionSort cmp (p ++ [pivot]).
Proof.
  intros Qp Qpivot.
  set (s := insertionSort cmp p).
  assert (Qs : Forall Q s) by (unfold s; by rewrite insertionSort_perm).
  assert (Hs : StronglySorted (fun x y => cmp x y <> Gt) s).
  { apply insertionSort_sorted with (Q := Q); auto.
    intros a b Qa Qb Hgt. by rewrite (cmp_antisym a b), Hgt. }
  destruct (search_spec (length s) pivot s 0 (length s) Qpivot Qs Hs)
    as (Hi & Hlo & Hhi); [lia|lia|intros; lia|..].
  { intros j e Hj He. apply lookup_lt_Some in He. lia. }
  unfold insertPivot. fold s.
  set (i := search cmp (length s) pivot s 0 (length s)) in *. clearbody i.
  assert (Hbefore : Forall (fun e => cmp e pivot <> Gt) (take i s)).
  { apply Forall_forall. intros e He.
    apply list_elem_of_lookup_1 in He as [j Hj].
    pose proof (lookup_lt_Some _ _ _ Hj) as Hlen. rewrite length_take in Hlen.
    rewrite lookup_take_lt in Hj by lia.
    assert (Qe : Q e).
    { rewrite Forall_forall in Qs. apply Qs. by eapply list_elem_of_lookup_2. }
    specialize (Hlo j e ltac:(lia) Hj). unfold below in Hlo.
    rewrite (cmp_antisym pivot e) by done. by destruct (cmp pivot e). }
  assert (Hafter : Forall (fun e => cmp pivot e = Lt) (drop i s)).
  { apply Forall_forall. intros e He.
    apply list_elem_of_lookup_1 in He as [j Hj]. rewrite lookup_drop in Hj.
    specialize (Hhi (i + j)%nat e ltac:(lia) Hj). unfold below in Hhi.
    by destruct (cmp pivot e). }
  apply sort_canonical with (Q := Q); auto.
  - apply Forall_app. split; [done|by constructor].
  - rewrite <- Permutation_middle, take_drop.
    rewrite <- Permutation_cons_append. constructor. apply insertionSort_perm.
  - rewrite <- (take_drop i s) in Hs.
    apply StronglySorted_app in Hs as (Hcross & Hs1 & Hs2).
    apply StronglySorted_app. split; [|split; [done|]].
    + intros a Ha b Hb. apply elem_of_cons in Hb as [->|Hb].
      * rewrite Forall_forall in Hbefore. by apply Hbefore.
      * by apply Hcross.
    + constructor; [done|]. eapply Forall_impl; [exact Hafter|].
      simpl. intros e He. congruence.
  - intros x Qx.
    rewrite !List.filter_app. simpl.
    rewrite <- (insertionSort_filter cmp (tie cmp x) p).
    2:{ intros a b Ha Hb Ta Tb. rewrite Forall_forall in Qp.
        assert (Hab : tie cmp a b = true).
        { apply (tie_trans cmp Q cmp_antisym cmp_trans a x b); auto.
          rewrite (tie_sym cmp Q cmp_antisym a x); auto. }
        unfold tie in Hab. by destruct (cmp a b). }
    fold s.
    assert (Hsplit : List.filter (tie cmp x) s
              = (List.filter (tie cmp x) (take i s)
                 ++ List.filter (tie cmp x) (drop i s))%list)
      by (by rewrite <- List.filter_app, take_drop).
    rewrite Hsplit.
    destruct (tie cmp x pivot) eqn:Hxp; [|by rewrite app_nil_r].
    assert (Hnone : List.filter (tie cmp x) (drop i s) = []).
    { rewrite Forall_forall in Hafter. apply filter_none.
      intros e He.
      assert (Qe : Q e).
      { rewrite Forall_forall in Qs. apply Qs.
        apply (subseteq_drop i s) in He. by rewrite <- (take_drop i s) in He |- *. }
      destruct (tie cmp x e) eqn:Hxe; [|done]. exfalso.
      assert (Hpe : tie cmp pivot e = true).
      { apply (tie_trans cmp Q cmp_antisym cmp_trans pivot x e); auto.
        rewrite (tie_sym cmp Q cmp_antisym pivot x); auto. }
      unfold tie in Hpe. rewrite (Hafter e He) in Hpe. done. }
    by rewrite Hnone, app_nil_r.
Qed.

Lemma binaryInsertionSort_sorts run rest :
  Forall Q run -> Forall Q rest ->
  binaryInsertionSort cmp (insertionSort cmp run) rest
  = insertionSort cmp (run ++ rest).
Proof.
  unfold binaryInsertionSort. revert run.
  induction rest as [|p rest IH]; intros run Qrun Qrest; simpl.
  - by rewrite app_nil_r.
  - apply Forall_cons in Qrest as [Qp Qrest].
    rewrite insertPivot_sorts by done.
    rewrite IH; [|apply Forall_app; split; [done|by constructor]|done].
    by rewrite <- app_assoc.
Qed.

(** The run [spanRun] finds is a chain: each element is below the one
    before it (descending), or not below it (ascending). *)
Lemma spanRun_chain isDescending prev l :
  let run := (spanRun cmp isDescending prev l).1 in
  forall i a b, (prev :: run) !! i = Some a -> run !! i = Some b ->
    below cmp b a = isDescending.
Proof.
  revert prev. induction l as [|cur l IH]; intros prev; simpl.
  - intros i a b _ Hb. by rewrite lookup_nil in Hb.
  - destruct (Bool.eqb (below cmp cur prev) isDescending) eqn:Hc.
    + specialize (IH cur). destruct (spanRun cmp isDescending cur l) as [run rest].
      simpl in *. intros [|i] a b Ha Hb; simpl in *.
      * simplify_eq. by apply Bool.eqb_prop.
      * by apply (IH i).
    + simpl. intros i a b _ Hb. by rewrite lookup_nil in Hb.
Qed.

(** An ascending chain is sorted. *)
Lemma ascending_sorted x run :
  Q x -> Forall Q run ->
  (forall i a b, (x :: run) !! i = Some a -> run !! i = Some b -> below cmp b a = false) ->
  StronglySorted (fun a b => cmp a b <> Gt) (x :: run).
Proof.
  revert x. induction run as [|y run IH]; intros x Qx Qrun Hchain.
  - repeat constructor.
  - apply Forall_cons in Qrun as [Qy Qrun].
    assert (Hs : StronglySorted (fun a b => cmp a b <> Gt) (y :: run)).
    { apply IH; auto. intros i a b Ha Hb. by apply (Hchain (S i)). }
    assert (Hxy : cmp x y <> Gt).
    { specialize (Hchain 0%nat x y eq_refl eq_refl). unfold below in Hchain.
      rewrite (cmp_antisym x y) in Hchain by done. by destruct (cmp x y). }
    constructor; [done|]. constructor; [done|].
    apply StronglySorted_inv in Hs as [_ Hy].
    rewrite Forall_forall in Hy, Qrun. apply Forall_forall. intros z Hz.
    apply (cmp_trans x y z); auto.
Qed.

(** A descending chain, reversed, is its stable sort. *)
Lemma descending_sorts x run :
  Q x -> Forall Q run ->
  (forall i a b, (x :: run) !! i = Some a -> run !! i = Some b -> below cmp b a = true) ->
  Forall (fun z => cmp x z = Gt) run
  /\ insertionSort cmp (x :: run) = rev (x :: run).
Proof.
  revert x. induction run as [|y run IH]; intros x Qx Qrun Hchain.
  - split; [constructor|done].
  - apply Forall_cons in Qrun as [Qy Qrun].
    destruct (IH y Qy Qrun) as [Hy Hsort].
    { intros i a b Ha Hb. by apply (Hchain (S i)). }
    assert (Hyx : cmp y x = Lt).
    { specialize (Hchain 0%nat x y eq_refl eq_refl). unfold below in Hchain.
      by destruct (cmp y x). }
    assert (Hall : Forall (fun z => cmp x z = Gt) (y :: run)).
    { constructor; [by rewrite (cmp_antisym y x Qy Qx), Hyx|].
      rewrite Forall_forall in Hy, Qrun. apply Forall_forall. intros z Hz.
      assert (Qz : Q z) by auto.
      assert (Hzy : cmp z y = Lt) by (rewrite (cmp_antisym y z Qy Qz), (Hy z Hz); done).
      rewrite (cmp_antisym z x Qz Qx).
      rewrite (cmp_lt_le cmp Q cmp_antisym cmp_trans z y x); auto. congruence. }
    split; [done|].
    change (insertionSort cmp (x :: y :: run))
      with (sortInsert cmp x (insertionSort cmp (y :: run))).
    rewrite Hsort. rewrite sortInsert_last; [done|].
    rewrite Forall_forall in Hall. apply Forall_forall.
    intros z Hz. apply Hall. apply list_elem_of_In, List.in_rev.
    by apply list_elem_of_In.
Qed.

Lemma sort_sorts l : Forall Q l -> sort cmp l = insertionSort cmp l.
Proof.
  intros Ql. destruct l as [|x [|y l]]; try done.
  unfold sort, countAndMakeRun.
  pose proof (spanRun_app cmp (below cmp y x) y l) as Happ.
  pose proof (spanRun_chain (below cmp y x) y l) as Hchain.
  destruct (spanRun cmp (below cmp y x) y l) as [run rest]. simpl in Happ, Hchain.
  apply Forall_cons in Ql as [Qx Ql]. apply Forall_cons in Ql as [Qy Ql].
  rewrite <- Happ in Ql. apply Forall_app in Ql as [Qrun Qrest].
  assert (Hfull : forall i a b, (x :: y :: run) !! i = Some a ->
            (y :: run) !! i = Some b -> below cmp b a = below cmp y x).
  { intros [|i] a b Ha Hb; simpl in *; [by simplify_eq|]. by apply (Hchain i). }
  assert (Hrun : (if below cmp y x then rev (x :: y :: run) else x :: y :: run)
                 = insertionSort cmp (x :: y :: run)).
  { destruct (below cmp y x).
    - symmetry. apply descending_sorts; auto.
    - symmetry. apply insertionSort_sorted_id. apply ascending_sorted; auto. }
  rewrite Hrun, binaryInsertionSort_sorts; auto.
  by rewrite <- Happ.
Qed.

End V8Sorts.

Lemma sort_consistent {A} (cmp : A -> A -> comparison) l :
  consistent cmp l -> sort cmp l = insertionSort cmp l.
Proof.
  intros Hc. apply sort_sorts with (Q := fun x => x ∈ l).
  - intros ? ?; by apply consistent_antisym.
  - intros ? ? ?; by apply consistent_trans.
  - by apply Forall_forall.
Qed.

End V8.

(** ** Engines to run closed examples on *)

(** The doubles that are integers (and NaN), decimal integer literals,
    and text compared code unit by code unit.  On integers below 2^53 in
    magnitude, on such literals and on text of digits and lower-case
    letters it computes what a JavaScript engine does.  A built-in
    function prints as it does in V8 and JavaScriptCore. *)
Module IntEngine.

Definition compare (a b : option Z) : option comparison :=
  match a, b with
  | Some x, Some y => Some (x ?= y)
  | _, _ => None
  end.

Fixpoint allDigits (s : string) (acc : option Z) : option Z :=
  match s with
  | String c s' =>
      match Str.digitOf c with
      | Some d => allDigits s' (Some (10 * default 0 acc + d))
      | None => None
      end
  | EmptyString => acc
  end.

Definition ofString (s : string) : option Z :=
  match Str.trim s with
  | EmptyString => Some 0
  | String "-" r => Z.opp <$> allDigits r None
  | String "+" r => allDigits r None
  | t => allDigits t None
  end.

Definition toString (x : option Z) : string :=
  match x with
  | None => "NaN"
  | Some z => if z <? 0 then "-" +:+ Str.ofN (Z.to_N (- z)) else Str.ofN (Z.to_N z)
  end.

Lemma ofN_nonempty n : Str.ofN n <> "".
Proof.
  unfold Str.ofN. destruct n as [|p]; [discriminate|].
  simpl. pose proof (DecimalPos.Unsigned.to_uint_nonnil p) as Hp.
  destruct (Pos.to_uint p); [congruence | discriminate ..].
Qed.

Lemma toString_nonempty x : toString x <> "".
Proof.
  destruct x as [z|]; simpl; [|discriminate].
  destruct (z <? 0); [discriminate | apply ofN_nonempty].
Qed.

Lemma compare_le_trans s t u :
  String.compare s t <> Gt -> String.compare t u <> Gt -> String.compare s u <> Gt.
Proof.
  intros Hst Htu Hsu.
  assert (Hlt : forall a b, String.compare a b <> Gt ->
                  a = b \/ OrderedTypeEx.String_as_OT.lt a b).
  { intros a b Hab. destruct (String.compare a b) eqn:E; [left|right|congruence].
    - by apply OrderedTypeEx.String_as_OT.cmp_eq.
    - by apply OrderedTypeEx.String_as_OT.cmp_lt. }
  assert (Hus : OrderedTypeEx.String_as_OT.lt u s).
  { apply OrderedTypeEx.String_as_OT.cmp_lt.
    unfold OrderedTypeEx.String_as_OT.cmp.
    rewrite String.compare_antisym, Hsu. reflexivity. }
  destruct (Hlt _ _ Hst) as [->|H1], (Hlt _ _ Htu) as [->|H2].
  - by apply OrderedTypeEx.String_as_OT.lt_not_eq in Hus.
  - apply (OrderedTypeEx.String_as_OT.lt_not_eq u u); [|reflexivity].
    eapply OrderedTypeEx.String_as_OT.lt_trans; eauto.
  - apply (OrderedTypeEx.String_as_OT.lt_not_eq u u); [|reflexivity].
    eapply OrderedTypeEx.String_as_OT.lt_trans; eauto.
  - apply (OrderedTypeEx.String_as_OT.lt_not_eq u u); [|reflexivity].
    eapply OrderedTypeEx.String_as_OT.lt_trans; [eauto|].
    eapply OrderedTypeEx.String_as_OT.lt_trans; eauto.
Qed.

Lemma compare_None a b :
  compare a b = None <-> compare a a = None \/ compare b b = None.
Proof.
  destruct a, b; simpl; split; intros Hx; try discriminate; auto;
    destruct Hx; discriminate.
Qed.

Lemma compare_refl a : compare a a <> None -> compare a a = Some Eq.
Proof. destruct a; simpl; [by rewrite Z.compare_refl | done]. Qed.

Lemma compare_antisym a b : compare b a = CompOpp <$> compare a b.
Proof. destruct a, b; simpl; try reflexivity. by rewrite Z.compare_antisym. Qed.

Lemma compare_trans a b c :
  compare a b <> Some Gt -> compare b c <> Some Gt ->
  compare a b <> None -> compare b c <> None ->
  compare a c <> Some Gt.
Proof.
  destruct a as [a|], b as [b|], c as [c|]; simpl; intros Hab Hbc ? ?; try done.
  intros Hac. injection Hac as Hac.
  assert (a <= b) by (intros E; apply Hab; by rewrite E).
  assert (b <= c) by (intros E; apply Hbc; by rewrite E).
  apply Z.compare_gt_iff in Hac. lia.
Qed.

Lemma string_compare_antisym s t : String.compare t s = CompOpp (String.compare s t).
Proof. apply String.compare_antisym. Qed.

Definition functionText (name : string) : string :=
  "function " +:+ name +:+ "() { [native code] }".

Lemma functionText_nonempty name : functionText name <> "".
Proof. discriminate. Qed.

Lemma insertionSort_stable A (cmp : A -> A -> comparison) l :
  consistent cmp l ->
  forall x, x ∈ l ->
    List.filter (tie cmp x) (insertionSort cmp l) = List.filter (tie cmp x) l.
Proof. intros Hc x Hx. by apply insertionSort_consistent_stable. Qed.

Lemma V8_sort_sorted A (cmp : A -> A -> comparison) l :
  consistent cmp l -> StronglySorted (fun x y => cmp x y <> Gt) (V8.sort cmp l).
Proof.
  intros Hc. rewrite V8.sort_consistent by done.
  by apply insertionSort_consistent_sorted.
Qed.

Lemma V8_sort_stable A (cmp : A -> A -> comparison) l :
  consistent cmp l ->
  forall x, x ∈ l ->
    List.filter (tie cmp x) (V8.sort cmp l) = List.filter (tie cmp x) l.
Proof.
  intros Hc x Hx. rewrite V8.sort_consistent by done.
  by apply insertionSort_consistent_stable.
Qed.

End IntEngine.

#[export] Instance intEngine : Engine := {|
  number := option Z;
  num_compare := IntEngine.compare;
  Number_of_string := IntEngine.ofString;
  String_of_number := IntEngine.toString;
  localeCompare := String.compare;
  num_compare_None := IntEngine.compare_None;
  num_compare_refl := IntEngine.compare_refl;
  num_compare_antisym := IntEngine.compare_antisym;
  num_compare_trans := IntEngine.compare_trans;
  localeCompare_antisym := IntEngine.string_compare_antisym;
  localeCompare_trans := IntEngine.compare_le_trans;
  String_of_number_nonempty := IntEngine.toString_nonempty;
  String_of_function := IntEngine.functionText;
  String_of_function_nonempty := IntEngine.functionText_nonempty;
  sort := @insertionSort;
  sort_perm := @insertionSort_perm;
  sort_ext := @insertionSort_ext;
  sort_sorted := @insertionSort_consistent_sorted;
  sort_stable := IntEngine.insertionSort_stable;
|}.

(** The same engine with the sort of V8. *)
Definition v8Engine : Engine := {|
  number := option Z;
  num_compare := IntEngine.compare;
  Number_of_string := IntEngine.ofString;
  String_of_number := IntEngine.toString;
  localeCompare := String.compare;
  num_compare_None := IntEngine.compare_None;
  num_compare_refl := IntEngine.compare_refl;
  num_compare_antisym := IntEngine.compare_antisym;
  num_compare_trans := IntEngine.compare_trans;
  localeCompare_antisym := IntEngine.string_compare_antisym;
  localeCompare_trans := IntEngine.compare_le_trans;
  String_of_number_nonempty := IntEngine.toString_nonempty;
  String_of_function := IntEngine.functionText;
  String_of_function_nonempty := IntEngine.functionText_nonempty;
  sort := @V8.sort;
  sort_perm := @V8.sort_permutes;
  sort_ext := @V8.sort_reads_results;
  sort_sorted := IntEngine.V8_sort_sorted;
  sort_stable := IntEngine.V8_sort_stable;
|}.

(** A one-column record [{v: x}] and a canvas with the given attributes,
    to state closed examples. *)
Definition rowOf (x : @value intEngine) : gmap string (@value intEngine) :=
  {[ "v" := x ]}.

Definition canvasOf (attrs : list (string * string)) : canvas :=
  Canvas (list_to_map attrs) true.

(** ** More of charts.js *)

(** [s.split(sep)] for a separator of one character: the pieces between
    the separators, one more than there are separators. *)
Fixpoint split (sep : ascii) (s : string) : list string :=
  match s with
  | EmptyString => [EmptyString]
  | String ch s' =>
      if Ascii.eqb ch sep then EmptyString :: split sep s'
      else
        match split sep s' with
        | piece :: rest => String ch piece :: rest
        | [] => [String ch EmptyString]
        end
  end.

(** The palette of [buildSimpleBar]:
    [(canvas.dataset.colors ? canvas.dataset.colors.split(";") : ["#3498db"])
       .map(c => c.trim())]. *)
Definition colorsOf (c : canvas) : list string :=
  let colorsRaw :=
    if truthy (dataset c !! "colors")
    then split ";" (default "" (dataset c !! "colors"))
    else ["#3498db"] in
  map Str.trim colorsRaw.

(** [labels.map((_, i) => colors[i % colors.length])]; [None] is the
    [undefined] an index out of range reads. *)
Definition bgColors {A} (colors : list string) (labels : list A)
  : list (option string) :=
  imap (fun i _ => colors !! (i mod length colors)%nat) labels.

(** The revision of [labelTeamSeason] that [src/charts.js] starts with: the
    team goes into the template literal as it is. *)
Module Legacy.
Section Legacy.
Context `{Engine}.

Definition labelTeamSeason (row : gmap string value) (labelCol : string)
    (seasonCol : option string) : string :=
  let team := get row labelCol in
  let season := if truthy seasonCol then get row (default "" seasonCol) else VNull in
  if negb (absent season)
  then ToString team +:+ " (" +:+ ToString season +:+ ")"
  else ToString team.

End Legacy.
End Legacy.

(** The configuration a builder hands to [new Chart], as a function of the
    rows [loadCsv] returned. *)
Definition chartOf `{Engine} (k : chartKind) (c : canvas)
    (rowsRaw : list (gmap string value)) : chart :=
  let title := orElse (dataset c !! "title") "" in
  let rows := applySortLimit rowsRaw c in
  let labelCol := key (dataset c !! "labelCol") in
  let yCol := key (dataset c !! "yCol") in
  match k with
  | WinsLosses =>
      Chart "bar" title
        (Some (map (fun r => VStr (labelTeamSeason r labelCol (seasonColOf c))) rows))
        [Series (VStr (orElse (dataset c !! "winsLabel") "Wins"))
           (map (fun r => DVal (get r (key (dataset c !! "winsCol")))) rows);
         Series (VStr (orElse (dataset c !! "lossesLabel") "Losses"))
           (map (fun r => DVal (get r (key (dataset c !! "lossesCol")))) rows)]
  | Bar =>
      Chart "bar" title
        (Some (map (fun r => VStr (labelTeamSeason r labelCol (seasonColOf c))) rows))
        [Series (VStr (orElse (dataset c !! "yLabel") yCol))
           (map (fun r => DVal (get r yCol)) rows)]
  | SimpleBar =>
      Chart "bar" title (Some (map (fun r => get r labelCol) rows))
        [Series (VStr (orElse (dataset c !! "yLabel") yCol))
           (map (fun r => DVal (get r yCol)) rows)]
  | HorizontalBar =>
      Chart "bar" title (Some (map (fun r => get r labelCol) rows))
        [Series (VStr "Importance") (map (fun r => DVal (get r yCol)) rows)]
  | ModelComparison =>
      Chart "bar" title (Some (map VStr metricLabels))
        (map (fun r => Series (get r "MODEL")
                         (map (fun m => DVal (get r m)) metrics)) rowsRaw)
  | RocCurves =>
      Chart "line" title None
        (imap (fun i col =>
                 Series (from_option VStr VUndefined (modelNames !! i))
                        (map (fun r => DPoint (get r "FPR") (get r col)) rowsRaw))
              tprCols
         ++ [Series (VStr "Random Classifier") [DPointLit 0 0; DPointLit 1 1]])%list
  end.

(** A column [applySortLimit] can order: its present values are all
    numeric or all non-numeric, and its absent values are all the same
    (all [null], all [undefined] or all empty text). *)
Definition consistentCol `{Engine} (col : string)
    (rows : list (gmap string value)) : Prop :=
  (numericCol col rows \/ textCol col rows)
  /\ exists z, Forall (fun r => absent (get r col) = true -> get r col = z) rows.

(** The label of a record in each of the three builders of one series. *)
Definition singleLabel `{Engine} (k : chartKind) (c : canvas) (labelCol : string)
    (r : gmap string value) : value :=
  match k with
  | Bar => VStr (labelTeamSeason r labelCol (seasonColOf c))
  | _ => get r labelCol
  end.

(** A cell of a column of present values of one kind and absent values
    that are all [z]. *)
Definition cellOk `{Engine} (kind : value -> bool) (z v : value) : Prop :=
  (absent v = true -> v = z) /\ (absent v = false -> kind v = true).

(** An event of the trace is a fetch. *)
Definition isFetch `{Engine} (ev : event) : bool :=
  match ev with Fetch _ => true | NewChart _ => false end.

(** Two records of an NBA table, a world that serves them and a canvas for
    each kind of chart. *)
Definition sixers : gmap string (@value intEngine) :=
  {[ "TEAM" := VStr "Sixers"; "W" := VNum (Some 9); "L" := VNum (Some 73);
     "MODEL" := VStr "LR"; "FPR" := VNum (Some 0) ]}.

Definition bobcats : gmap string (@value intEngine) :=
  {[ "TEAM" := VStr "Bobcats"; "W" := VNum (Some 7); "L" := VNum (Some 59);
     "MODEL" := VStr "RF"; "FPR" := VNum (Some 1) ]}.

Definition nbaWorld : @world intEngine :=
  World (fun _ => Some (Response 200 "TEAM,W,L"))
        (fun _ => Some [ItemObj sixers; ItemOther VNull; ItemObj ∅; ItemObj bobcats]).

Definition nbaCanvas : canvas :=
  canvasOf [("csv", "nba.csv"); ("labelCol", "TEAM"); ("winsCol", "W");
            ("lossesCol", "L"); ("yCol", "W"); ("sortCol", "W"); ("limit", "1")].

(** * Properties *)

(** ** The sort *)

Section EngineSort.
Context `{Engine} {A : Type} (cmp : A -> A -> comparison).

Lemma sort_length l : length (sort cmp l) = length l.
Proof. by rewrite sort_perm. Qed.

Lemma sort_elem_of x l : x ∈ sort cmp l <-> x ∈ l.
Proof. by rewrite sort_perm. Qed.

(** With a consistent comparator every engine returns what the insertion
    sort returns. *)
Lemma sort_insertion l : consistent cmp l -> sort cmp l = insertionSort cmp l.
Proof.
  intros Hc. apply consistent_canonical; [done|apply sort_perm|..].
  - by apply sort_sorted.
  - by apply sort_stable.
Qed.

End EngineSort.

(** ** The comparator *)

Section Comparator.
Context `{Engine}.

Lemma compareRows_values col dir a b :
  compareRows col dir a b = compareValues dir (get a col) (get b col).
Proof. reflexivity. Qed.

Lemma strictEq_absent a b : strictEq a b = true -> absent a = absent b.
Proof.
  destruct a, b; simpl; try done.
  intros Hst. apply String.eqb_eq in Hst. by subst.
Qed.


Lemma compareValues_le_absent dir a b :
  compareValues dir a b <> Gt -> absent a = true -> absent b = true.
Proof.
  unfold compareValues. destruct (strictEq a b) eqn:Heq.
  - apply strictEq_absent in Heq. congruence.
  - intros Hc Ha. by rewrite Ha in Hc.
Qed.

Lemma numeric_inv v :
  numeric v = true ->
  exists x, toNumberMaybe v = Some x /\ num_compare x x = Some Eq.
Proof.
  unfold numeric, isNaN. destruct (toNumberMaybe v) as [x|]; [|done].
  intros Hx. exists x. split; [done|]. apply num_compare_refl.
  by destruct (num_compare x x).
Qed.

Lemma num_compare_total x y :
  num_compare x x = Some Eq -> num_compare y y = Some Eq ->
  exists c, num_compare x y = Some c.
Proof.
  intros Hx Hy. destruct (num_compare x y) eqn:Hxy; [by eexists|].
  apply num_compare_None in Hxy as [Hn|Hn]; congruence.
Qed.

Lemma localeCompare_refl s : localeCompare s s = Eq.
Proof.
  pose proof (localeCompare_antisym s s) as Ha.
  by destruct (localeCompare s s).
Qed.

(** Strictly equal cells of one kind are equivalent in the order. *)
Lemma strictEq_value_le a b :
  strictEq a b = true ->
  (numeric a = true /\ numeric b = true) \/ (textual a = true /\ textual b = true) ->
  value_le a b.
Proof.
  intros Heq [[Ha Hb]|[Ha Hb]].
  - apply numeric_inv in Ha as (x & Hx & Hxx), Hb as (y & Hy & Hyy).
    unfold value_le. rewrite Hx, Hy.
    destruct a, b; simpl in Heq; try done.
    + simpl in Hx, Hy. simplify_eq. right.
      by destruct (num_compare x y) as [[]|].
    + apply String.eqb_eq in Heq. subst. rewrite Hx in Hy. simplify_eq. by right.
  - unfold textual in Ha, Hb. unfold value_le.
    destruct (toNumberMaybe a); [done|].
    assert (ToString a = ToString b) as ->.
    { destruct a, b; simpl in Heq; try done.
      - apply Bool.eqb_prop in Heq. by subst.
      - by apply String.eqb_eq in Heq.
      - apply String.eqb_eq in Heq. by subst. }
    by rewrite localeCompare_refl.
Qed.

Lemma strictEq_sym a b : strictEq a b = strictEq b a.
Proof.
  destruct a, b; simpl; try done.
  - by destruct b, b0.
  - rewrite (num_compare_antisym x x0). by destruct (num_compare x x0) as [[]|].
  - apply String.eqb_sym.
  - apply String.eqb_sym.
Qed.

(** On present cells of one kind the comparator decides the order. *)
Lemma compareValues_value_le dir a b :
  absent a = false -> absent b = false ->
  (numeric a = true /\ numeric b = true) \/ (textual a = true /\ textual b = true) ->
  compareValues dir a b <> Gt ->
  if String.eqb dir "asc" then value_le a b else value_le b a.
Proof.
  intros Ha Hb Hkind. unfold compareValues.
  destruct (strictEq a b) eqn:Heq.
  - intros _. destruct (String.eqb dir "asc"); apply strictEq_value_le; auto.
    + by rewrite strictEq_sym.
    + tauto.
  - rewrite Ha, Hb. destruct Hkind as [[Hna Hnb]|[Hta Htb]].
    + apply numeric_inv in Hna as (x & Hx & Hxx), Hnb as (y & Hy & Hyy).
      unfold value_le. rewrite Hx, Hy. unfold sub_sign.
      destruct (num_compare_total x y Hxx Hyy) as [c Hc].
      destruct (num_compare_total y x Hyy Hxx) as [c' Hc'].
      rewrite Hc, Hc'.
      destruct (String.eqb dir "asc"); [destruct c | destruct c']; intros Hgt; auto; done.
    + unfold textual in Hta, Htb. unfold value_le.
      destruct (toNumberMaybe a); [done|]. destruct (toNumberMaybe b); [done|].
      by destruct (String.eqb dir "asc").
Qed.


Lemma value_le_trans a b c :
  (numeric a = true /\ numeric b = true /\ numeric c = true)
  \/ (textual a = true /\ textual b = true /\ textual c = true) ->
  value_le a b -> value_le b c -> value_le a c.
Proof.
  intros [(Ha & Hb & Hc)|(Ha & Hb & Hc)].
  - apply numeric_inv in Ha as (x & Hx & Hxx), Hb as (y & Hy & Hyy),
      Hc as (z & Hz & Hzz).
    unfold value_le. rewrite Hx, Hy, Hz. intros Hxy Hyz.
    destruct (num_compare_total x z Hxx Hzz) as [r Hr].
    pose proof (num_compare_trans x y z) as Htr.
    destruct r; auto. exfalso. apply Htr; auto; destruct Hxy, Hyz; congruence.
  - unfold textual in Ha, Hb, Hc. unfold value_le.
    destruct (toNumberMaybe a); [done|]. destruct (toNumberMaybe b); [done|].
    destruct (toNumberMaybe c); [done|]. apply localeCompare_trans.
Qed.

(** *** On a column of one kind *)

Lemma strictEq_refl_absent z : absent z = true -> strictEq z z = true.
Proof.
  destruct z as [| | b | x | s | k]; simpl; try done. intros _. apply String.eqb_refl.
Qed.

Lemma compareValues_present_absent dir u v :
  absent u = false -> absent v = true -> compareValues dir u v = Lt.
Proof.
  intros Hu Hv. unfold compareValues.
  destruct (strictEq u v) eqn:Heq.
  - apply strictEq_absent in Heq. congruence.
  - by rewrite Hu, Hv.
Qed.

Lemma compareValues_absent_present dir u v :
  absent u = true -> absent v = false -> compareValues dir u v = Gt.
Proof.
  intros Hu Hv. unfold compareValues.
  destruct (strictEq u v) eqn:Heq.
  - apply strictEq_absent in Heq. congruence.
  - by rewrite Hu.
Qed.

Lemma compareValues_absent_absent dir z :
  absent z = true -> compareValues dir z z = Eq.
Proof. intros Hz. unfold compareValues. by rewrite strictEq_refl_absent. Qed.

(** On present cells of one kind, the order decides the comparator. *)
Lemma value_le_compareValues dir a b :
  absent a = false -> absent b = false ->
  (numeric a = true /\ numeric b = true) \/ (textual a = true /\ textual b = true) ->
  (if String.eqb dir "asc" then value_le a b else value_le b a) ->
  compareValues dir a b <> Gt.
Proof.
  intros Ha Hb Hkind Hle. unfold compareValues.
  destruct (strictEq a b); [done|]. rewrite Ha, Hb.
  destruct Hkind as [[Hna Hnb]|[Hta Htb]].
  - apply numeric_inv in Hna as (x & Hx & Hxx), Hnb as (y & Hy & Hyy).
    unfold value_le in Hle. rewrite Hx, Hy in *. unfold sub_sign.
    destruct (String.eqb dir "asc"); destruct Hle as [-> | ->]; done.
  - unfold textual in Hta, Htb. unfold value_le in Hle.
    destruct (toNumberMaybe a); [done|]. destruct (toNumberMaybe b); [done|].
    by destruct (String.eqb dir "asc").
Qed.

Lemma compareValues_antisym kind z dir u v :
  kind = numeric \/ kind = textual ->
  cellOk kind z u -> cellOk kind z v ->
  compareValues dir v u = CompOpp (compareValues dir u v).
Proof.
  intros Hkind [Hua Hup] [Hva Hvp].
  destruct (absent u) eqn:Hu, (absent v) eqn:Hv.
  - rewrite (Hua eq_refl), (Hva eq_refl).
    rewrite compareValues_absent_absent; [done|]. by rewrite <- (Hua eq_refl).
  - by rewrite compareValues_present_absent, compareValues_absent_present.
  - by rewrite compareValues_absent_present, compareValues_present_absent.
  - specialize (Hup eq_refl). specialize (Hvp eq_refl).
    unfold compareValues. rewrite (strictEq_sym v u).
    destruct (strictEq u v); [done|]. rewrite Hu, Hv.
    destruct Hkind as [-> | ->].
    + apply numeric_inv in Hup as (x & Hx & Hxx), Hvp as (y & Hy & Hyy).
      rewrite Hx, Hy. unfold sub_sign.
      rewrite (num_compare_antisym x y).
      destruct (num_compare_total x y Hxx Hyy) as [r ->]. simpl.
      destruct (String.eqb dir "asc"); [done|]. by destruct r.
    + unfold textual in Hup, Hvp.
      destruct (toNumberMaybe u); [done|]. destruct (toNumberMaybe v); [done|].
      rewrite (localeCompare_antisym (ToString u) (ToString v)).
      destruct (String.eqb dir "asc"); [done|].
      by destruct (localeCompare (ToString u) (ToString v)).
Qed.

Lemma compareValues_trans kind z dir u v w :
  kind = numeric \/ kind = textual ->
  cellOk kind z u -> cellOk kind z v -> cellOk kind z w ->
  compareValues dir u v <> Gt -> compareValues dir v w <> Gt ->
  compareValues dir u w <> Gt.
Proof.
  intros Hkind [Hua Hup] [Hva Hvp] [Hwa Hwp] Huv Hvw.
  assert (Hpair : forall a b, kind a = true -> kind b = true ->
            (numeric a = true /\ numeric b = true)
            \/ (textual a = true /\ textual b = true))
    by (destruct Hkind; subst; tauto).
  destruct (absent w) eqn:Hw.
  - destruct (absent u) eqn:Hu.
    + rewrite (Hua eq_refl), (Hwa eq_refl).
      rewrite compareValues_absent_absent; [done|]. by rewrite <- (Hua eq_refl).
    + by rewrite compareValues_present_absent.
  - assert (Hv : absent v = false).
    { destruct (absent v) eqn:Hv; [|done].
      by rewrite (compareValues_le_absent dir v w Hvw Hv) in Hw. }
    assert (Hu : absent u = false).
    { destruct (absent u) eqn:Hu; [|done].
      by rewrite (compareValues_le_absent dir u v Huv Hu) in Hv. }
    specialize (Hup Hu). specialize (Hvp Hv). specialize (Hwp eq_refl).
    apply value_le_compareValues; auto.
    pose proof (compareValues_value_le dir u v Hu Hv (Hpair _ _ Hup Hvp) Huv) as H1.
    pose proof (compareValues_value_le dir v w Hv Hw (Hpair _ _ Hvp Hwp) Hvw) as H2.
    assert (Htri : (numeric u = true /\ numeric v = true /\ numeric w = true)
                   \/ (textual u = true /\ textual v = true /\ textual w = true))
      by (destruct Hkind; subst; tauto).
    assert (Htri' : (numeric w = true /\ numeric v = true /\ numeric u = true)
                    \/ (textual w = true /\ textual v = true /\ textual u = true))
      by tauto.
    destruct (String.eqb dir "asc").
    + by apply (value_le_trans u v w).
    + by apply (value_le_trans w v u).
Qed.

(** The rows of a consistent column: one kind of present value, one
    absent value. *)
Lemma consistentCol_cells col rows :
  consistentCol col rows ->
  exists kind z, (kind = numeric \/ kind = textual)
                 /\ Forall (fun r => cellOk kind z (get r col)) rows.
Proof.
  intros [Hkind [z Hz]]. unfold numericCol, textCol in Hkind.
  rewrite !Forall_forall in Hkind. rewrite Forall_forall in Hz.
  destruct Hkind as [Hn|Ht]; [exists numeric, z|exists textual, z];
    (split; [tauto|]); apply Forall_forall; intros r Hr; split; auto.
Qed.

(** On such a column the comparator is a consistent comparator for the
    rows. *)
Lemma consistentCol_consistent col dir rows :
  consistentCol col rows -> consistent (compareRows col dir) rows.
Proof.
  intros Hcons. destruct (consistentCol_cells col rows Hcons) as (kind & z & Hk & Hcells).
  rewrite Forall_forall in Hcells. apply consistent_intro.
  - intros a b Ha Hb. rewrite !compareRows_values.
    apply (compareValues_antisym kind z); auto.
  - intros a b d Ha Hb Hd. rewrite !compareRows_values.
    apply (compareValues_trans kind z); auto.
Qed.

End Comparator.

(** ** Sort and limit *)

Section SortLimit.
Context `{Engine}.

(** The array as it is when the limit is applied. *)
Lemma applySortLimit_limit rows c :
  applySortLimit rows c =
    match limitOf c with
    | Some n => if 0 <? n then take (Z.to_nat n) (sortedRows rows c)
                else sortedRows rows c
    | None => sortedRows rows c
    end.
Proof. reflexivity. Qed.

Lemma applySortLimit_take rows c :
  exists k, applySortLimit rows c = take k (sortedRows rows c).
Proof.
  rewrite applySortLimit_limit.
  destruct (limitOf c) as [n|]; [destruct (0 <? n)|]; eauto;
    exists (length (sortedRows rows c)); by rewrite firstn_all.
Qed.

Lemma sortedRows_sort rows c col :
  dataset c !! "sortCol" = Some col -> col <> "" ->
  sortedRows rows c = sort (compareRows col (sortDirOf c)) rows.
Proof.
  intros Hcol Hne. unfold sortedRows. rewrite Hcol. simpl.
  by destruct col.
Qed.

Lemma sortedRows_perm rows c : sortedRows rows c ≡ₚ rows.
Proof.
  unfold sortedRows. destruct (truthy _); [apply sort_perm|done].
Qed.





End SortLimit.



Section Stability.
Context `{Engine}.




End Stability.


(** C2 as stated fails on a column that mixes numbers and text, where the
    comparator is not consistent and the order is the engine's.  On the
    engine that sorts as V8 does, ascending, the records [p] and [q] with
    the equal keys 10 and 10 change places: the array starts with the
    descending run [10, 9, "1a", "0z", "0a"] (10 above 9 as numbers, the
    others compared as text), which is reversed, and [q] is then inserted
    before "1a". *)
Section V8Examples.
#[local] Existing Instance v8Engine | 0.


End V8Examples.

Section Limit.
Context `{Engine}.

Lemma sortedRows_withoutLimit rows c :
  applySortLimit rows (withoutLimit c) = sortedRows rows c.
Proof.
  rewrite applySortLimit_limit.
  assert (limitOf (withoutLimit c) = Some 0) as ->.
  { unfold limitOf, withoutLimit. simpl. by rewrite lookup_delete_eq. }
  simpl. unfold sortedRows, sortDirOf, withoutLimit. simpl.
  by rewrite !lookup_delete_ne.
Qed.

(** C3: a limit N with 0 < N < L cuts the result down to the first N
    records of the fully sorted sequence; with a limit that is absent, 0
    or negative the result is the fully sorted sequence, all L records of
    the input. *)
Theorem applySortLimit_limit_cases rows c :
  (forall N, limitOf c = Some N -> 0 < N < Z.of_nat (length rows) ->
     applySortLimit rows c = take (Z.to_nat N) (applySortLimit rows (withoutLimit c))
     /\ length (applySortLimit rows c) = Z.to_nat N)
  /\ (dataset c !! "limit" = None \/ (exists N, limitOf c = Some N /\ N <= 0) ->
      applySortLimit rows c = applySortLimit rows (withoutLimit c)
      /\ length (applySortLimit rows c) = length rows
      /\ applySortLimit rows c ≡ₚ rows).
Proof.
  rewrite sortedRows_withoutLimit, applySortLimit_limit. split.
  - intros N -> HN. destruct (Z.ltb_spec 0 N); [|lia]. split; [done|].
    rewrite length_take, (Permutation_length (sortedRows_perm rows c)). lia.
  - intros Hlim.
    assert (Hcase : exists N, limitOf c = Some N /\ N <= 0).
    { destruct Hlim as [Hnone|Hex]; [|done].
      exists 0. unfold limitOf. by rewrite Hnone. }
    destruct Hcase as (N & -> & HN). destruct (Z.ltb_spec 0 N); [lia|].
    split; [done|]. split; [|apply sortedRows_perm].
    apply Permutation_length, sortedRows_perm.
Qed.

End Limit.

(** The theorem at five records: limit 3, and no limit. *)
Lemma applySortLimit_limit_cases_witness :
  let rows := map (fun z => rowOf (VNum (Some z))) [4; 8; 1; 9; 6] in
  let c := canvasOf [("sortCol", "v"); ("limit", "3")] in
  let c0 := canvasOf [("sortCol", "v")] in
  (map (fun r => get r "v") (applySortLimit rows c)
     = [VNum (Some 9); VNum (Some 8); VNum (Some 6)]
   /\ applySortLimit rows c = take 3 (applySortLimit rows (withoutLimit c)))
  /\ length (applySortLimit rows c0) = 5%nat.
Proof.
  intros rows c c0. split.
  - split; [reflexivity|].
    destruct (applySortLimit_limit_cases rows c) as [Hcut _].
    destruct (Hcut 3) as [Heq _]; [reflexivity | simpl; lia |].
    exact Heq.
  - destruct (applySortLimit_limit_cases rows c0) as [_ Hall].
    destruct Hall as (_ & Hlen & _); [left; reflexivity|].
    exact Hlen.
Defined.

(** ** The input array is left alone *)

Module StoreFacts.
Section StoreFacts.
Context `{Engine}.

Lemma slice_fresh a start end_ (h : gmap nat (list (gmap string value))) :
  h !! (Store.slice a start end_ h).1 = None.
Proof. simpl. apply not_elem_of_dom, is_fresh. Qed.

(** Every array of the store before the call is the same after it; the
    result is a reference the store did not have, and the array it refers
    to holds what [applySortLimit] computes from the contents of [rows]. *)
Lemma applySortLimit_spec rows c (h : gmap nat (list (gmap string value))) arr :
  h !! rows = Some arr ->
  (forall l, is_Some (h !! l) -> (Store.applySortLimit rows c h).2 !! l = h !! l)
  /\ h !! (Store.applySortLimit rows c h).1 = None
  /\ (Store.applySortLimit rows c h).2 !! (Store.applySortLimit rows c h).1
     = Some (applySortLimit arr c).
Proof.
  intros Hrows. unfold Store.applySortLimit, Store.slice. simpl.
  replace (Store.readArr h rows) with arr
    by (unfold Store.readArr; by rewrite Hrows).
  rewrite drop_0.
  set (l1 := fresh (dom h)).
  assert (Hl1 : h !! l1 = None) by apply not_elem_of_dom, is_fresh.
  set (h2 := if truthy (dataset c !! "sortCol")
             then Store.sortArr _ l1 (<[l1:=arr]> h)
             else <[l1:=arr]> h).
  assert (Hh2 : h2 !! l1 = Some (sortedRows arr c)
                /\ forall l, l <> l1 -> h2 !! l = h !! l).
  { unfold h2, sortedRows, Store.sortArr. destruct (truthy _).
    - split; [by rewrite lookup_alter_eq, lookup_insert_eq|].
      intros l Hl. by rewrite lookup_alter_ne, lookup_insert_ne.
    - split; [by rewrite lookup_insert_eq|].
      intros l Hl. by rewrite lookup_insert_ne. }
  destruct Hh2 as [Hout Hframe]. clearbody h2 l1.
  replace (Store.readArr h2 l1) with (sortedRows arr c)
    by (unfold Store.readArr; by rewrite Hout).
  rewrite drop_0.
  assert (Hold : forall l, is_Some (h !! l) -> l <> l1).
  { intros l [x Hx] ->. congruence. }
  rewrite applySortLimit_limit.
  assert (Hnolimit :
    (forall l, is_Some (h !! l) -> (l1, h2).2 !! l = h !! l)
    /\ h !! (l1, h2).1 = None
    /\ (l1, h2).2 !! (l1, h2).1 = Some (sortedRows arr c)).
  { simpl. split; [|done]. intros l Hl. apply Hframe. by apply Hold. }
  destruct (limitOf c) as [n|]; [|exact Hnolimit].
  destruct (0 <? n); [|exact Hnolimit].
  simpl.
  set (l2 := fresh (dom h2)).
  assert (Hl2 : h2 !! l2 = None) by apply not_elem_of_dom, is_fresh.
  clearbody l2.
  split; [|split].
  - intros l Hl. rewrite lookup_insert_ne.
    + apply Hframe. by apply Hold.
    + intros Heq. rewrite <- Heq in Hl.
      rewrite Hframe in Hl2 by (by apply Hold).
      destruct Hl as [x Hx]. congruence.
  - destruct (decide (l2 = l1)) as [Heq|Hne]; [by rewrite Heq|].
    rewrite <- (Hframe l2 Hne). exact Hl2.
  - by rewrite lookup_insert_eq, Nat.sub_0_r.
Qed.

(** C8: [applySortLimit] returns a new array and leaves its input as it
    was: after the call the array [rows] refers to (and every other array
    the store had) holds the same records in the same order; the result
    is a reference the store did not have, to an array holding the
    records [applySortLimit] selects. *)
Theorem applySortLimit_frame rows c (h : gmap nat (list (gmap string value))) arr :
  h !! rows = Some arr ->
  (Store.applySortLimit rows c h).2 !! rows = Some arr
  /\ (forall l, is_Some (h !! l) -> (Store.applySortLimit rows c h).2 !! l = h !! l)
  /\ (Store.applySortLimit rows c h).1 <> rows
  /\ h !! (Store.applySortLimit rows c h).1 = None
  /\ (Store.applySortLimit rows c h).2 !! (Store.applySortLimit rows c h).1
     = Some (applySortLimit arr c).
Proof.
  intros Hrows.
  destruct (applySortLimit_spec rows c h arr Hrows) as (Hframe & Hnew & Hres).
  repeat split; try done.
  - rewrite Hframe; [done|by eexists].
  - intros Heq. rewrite Heq in Hnew. congruence.
Qed.

End StoreFacts.
End StoreFacts.

(** The theorem at a store with one array, sorted and cut to two. *)
Lemma applySortLimit_frame_witness :
  let arr := map (fun z => rowOf (VNum (Some z))) [4; 8; 1] in
  let h : gmap nat (list (gmap string value)) := {[ 0%nat := arr ]} in
  let c := canvasOf [("sortCol", "v"); ("limit", "2")] in
  (Store.applySortLimit 0%nat c h).2 !! 0%nat = Some arr
  /\ (Store.applySortLimit 0%nat c h).1 <> 0%nat.
Proof.
  intros arr h c.
  destruct (StoreFacts.applySortLimit_frame 0%nat c h arr) as (Hsame & _ & Hnew & _);
    [reflexivity|].
  split; [exact Hsame | exact Hnew].
Defined.

(** ** Coercion and labels *)

Section Cells.
Context `{Engine}.

Lemma isEmpty_true s : Str.isEmpty s = true <-> s = "".
Proof. destruct s; simpl; split; intros; done. Qed.

Lemma isEmpty_false s : Str.isEmpty s = false <-> s <> "".
Proof. destruct s; simpl; split; intros; done. Qed.

(** C7: [toNumberMaybe] returns a number as it is, the parsed number for
    text that parses in full as a number, and null (here [None]) for
    everything else; it is a total function. *)
Theorem toNumberMaybe_spec v :
  (forall x, v = VNum x -> toNumberMaybe v = Some x)
  /\ (forall s, v = VStr s -> parsesAsNumber s ->
        toNumberMaybe v = Some (Number_of_string s))
  /\ ((forall x, v <> VNum x) -> (forall s, v = VStr s -> ~ parsesAsNumber s) ->
      toNumberMaybe v = None).
Proof.
  split; [|split].
  - by intros x ->.
  - intros s -> [Htrim Hnan]. simpl.
    apply isEmpty_false in Htrim. by rewrite Htrim, Hnan.
  - intros Hnum Hstr. destruct v as [| | b | x | s | k]; simpl; try done.
    + by destruct (Hnum x).
    + destruct (Str.isEmpty (Str.trim s)) eqn:Htrim; [done|].
      destruct (isNaN (Number_of_string s)) eqn:Hnan; [done|].
      destruct (Hstr s eq_refl). split; [by apply isEmpty_false|done].
Qed.

Lemma ToString_nonempty v : absent v = false -> ToString v <> "".
Proof.
  destruct v as [| | [] | x | s | k]; simpl; try done.
  - intros _. apply String_of_number_nonempty.
  - by intros Hs%isEmpty_false.
  - intros _. destruct (String.eqb k "__proto__"); [done|].
    apply String_of_function_nonempty.
Qed.

(** What a column reads as: the record's own value; for a column the
    record lacks, [undefined], or the member of [Object.prototype] when
    the column is named like one. *)
Lemma get_own row k v : row !! k = Some v -> get row k = v.
Proof. unfold get. by intros ->. Qed.

Lemma get_lacking row k : row !! k = None -> k ∉ inherited -> get row k = VUndefined.
Proof. unfold get. intros -> Hk. by rewrite bool_decide_false. Qed.

Lemma get_inherited row k :
  row !! k = None -> k ∈ inherited -> get row k = VInherited k.
Proof. unfold get. intros -> Hk. by rewrite bool_decide_true. Qed.

Lemma labelTeamSeason_primary row labelCol :
  labelTeamSeason row labelCol None
  = if nullish (get row labelCol) then "" else ToString (get row labelCol).
Proof. reflexivity. Qed.

(** C4 (amended): the label of a record.  A primary value that reads as
    undefined or null gives empty text, never "undefined" or "null": that
    is a null cell, and a column the record lacks unless the column is
    named like a member every object inherits ([constructor], [toString],
    ...).  With a qualifier column whose value reads as present and not
    empty the label is "primary (qualifier)", in every other case (no
    qualifier column, or one the record lacks and does not inherit, or a
    null or empty cell) it is the primary text alone.  For TEAM "Sixers"
    and SEASON "1972-73" it is "Sixers (1972-73)", and "Sixers" without a
    season column or with an empty season. *)
Theorem labelTeamSeason_spec row labelCol seasonCol :
  let primary := labelTeamSeason row labelCol None in
  (nullish (get row labelCol) = true -> primary = "")
  /\ (nullish (get row labelCol) = false -> primary = ToString (get row labelCol))
  /\ (row !! labelCol = Some VNull
      \/ (row !! labelCol = None /\ labelCol ∉ inherited) -> primary = "")
  /\ (forall q, seasonCol = Some q -> q <> "" -> absent (get row q) = false ->
        labelTeamSeason row labelCol seasonCol
        = primary +:+ " (" +:+ ToString (get row q) +:+ ")")
  /\ (seasonCol = None \/ seasonCol = Some ""
      \/ (exists q, seasonCol = Some q /\ absent (get row q) = true) ->
      labelTeamSeason row labelCol seasonCol = primary)
  /\ (forall q, seasonCol = Some q -> row !! q = None -> q ∉ inherited ->
        labelTeamSeason row labelCol seasonCol = primary)
  /\ (let sixers : gmap string value :=
        {[ "TEAM" := VStr "Sixers"; "SEASON" := VStr "1972-73" ]} in
      labelTeamSeason sixers "TEAM" (Some "SEASON") = "Sixers (1972-73)"
      /\ labelTeamSeason sixers "TEAM" None = "Sixers"
      /\ labelTeamSeason (<["SEASON" := VStr ""]> sixers) "TEAM" (Some "SEASON")
         = "Sixers").
Proof.
  intros primary. unfold primary. rewrite labelTeamSeason_primary.
  assert (Hno : seasonCol = None \/ seasonCol = Some ""
                \/ (exists q, seasonCol = Some q /\ absent (get row q) = true) ->
                labelTeamSeason row labelCol seasonCol
                = if nullish (get row labelCol) then "" else ToString (get row labelCol)).
  { intros [->|[->|(q & -> & Habs)]]; try done.
    unfold labelTeamSeason. simpl. destruct (Str.isEmpty q); simpl; [done|].
    by rewrite Habs. }
  split; [by intros ->|]. split; [by intros ->|]. split; [|split; [|split; [|split]]].
  - intros [Hnull|[Hnone Hown]].
    + by rewrite (get_own _ _ _ Hnull).
    + by rewrite (get_lacking _ _ Hnone Hown).
  - intros q -> Hq Hpresent. unfold labelTeamSeason. simpl.
    apply isEmpty_false in Hq. rewrite Hq. simpl. rewrite Hpresent.
    pose proof (ToString_nonempty _ Hpresent) as Hne.
    apply isEmpty_false in Hne. by rewrite Hne.
  - exact Hno.
  - intros q -> Hnone Hown. apply Hno. right; right. exists q.
    split; [done|]. by rewrite (get_lacking _ _ Hnone Hown).
  - simpl. repeat split; reflexivity.
Qed.

End Cells.

(** The theorem on the integer engine: text that parses, text that does
    not, empty text and null. *)
Lemma toNumberMaybe_spec_witness :
  toNumberMaybe (VStr " 42 ") = Some (Some 42)
  /\ toNumberMaybe (VStr "12abc") = None
  /\ toNumberMaybe (VStr "   ") = None
  /\ toNumberMaybe (@VNull intEngine) = None.
Proof.
  split; [|split; [|split]].
  - destruct (toNumberMaybe_spec (VStr " 42 ")) as (_ & Hparse & _).
    rewrite (Hparse " 42 " eq_refl); [reflexivity|].
    split; [discriminate|reflexivity].
  - destruct (toNumberMaybe_spec (VStr "12abc")) as (_ & _ & Hnull).
    apply Hnull; [discriminate|]. intros s [= <-] [_ Hnan]. discriminate.
  - destruct (toNumberMaybe_spec (VStr "   ")) as (_ & _ & Hnull).
    apply Hnull; [discriminate|]. intros s [= <-] [Htrim _]. by apply Htrim.
  - destruct (toNumberMaybe_spec (@VNull intEngine)) as (_ & _ & Hnull).
    apply Hnull; discriminate.
Defined.

(** The theorem at a record with a numeric qualifier and a null team, and
    at a column the record lacks. *)
Lemma labelTeamSeason_spec_witness :
  let r : gmap string value := {[ "TEAM" := VNull; "YEAR" := VNum (Some 1973) ]} in
  labelTeamSeason r "TEAM" None = ""
  /\ labelTeamSeason r "CITY" None = ""
  /\ labelTeamSeason r "TEAM" (Some "YEAR") = " (1973)"
  /\ labelTeamSeason r "TEAM" (Some "SEASON") = "".
Proof.
  intros r.
  destruct (labelTeamSeason_spec r "TEAM" (Some "YEAR")) as (_ & _ & Hnull & Hq & _).
  destruct (labelTeamSeason_spec r "CITY" None) as (_ & _ & Hlack & _).
  destruct (labelTeamSeason_spec r "TEAM" (Some "SEASON"))
    as (_ & _ & _ & _ & _ & Hno & _).
  split; [|split; [|split]].
  - apply Hnull. left. reflexivity.
  - apply Hlack. right. split; [reflexivity|].
    apply (proj1 (bool_decide_eq_false _)). reflexivity.
  - rewrite (Hq "YEAR" eq_refl); [|discriminate|reflexivity].
    rewrite Hnull; [reflexivity|]. left. reflexivity.
  - rewrite (Hno "SEASON" eq_refl);
      [|reflexivity|apply (proj1 (bool_decide_eq_false _)); reflexivity].
    apply Hnull. left. reflexivity.
Defined.

(** C4 as stated fails for a column named like a member of
    [Object.prototype]: the record [{TEAM: "Sixers"}] has no column
    "constructor", yet as the primary column it gives the text of the
    function [Object], not empty text, and as the qualifier column it is
    appended to the primary text. *)
Lemma labelTeamSeason_inherited_column :
  let r : gmap string (@value intEngine) := {[ "TEAM" := VStr "Sixers" ]} in
  r !! "constructor" = None
  /\ labelTeamSeason r "constructor" None = "function Object() { [native code] }"
  /\ labelTeamSeason r "constructor" None <> ""
  /\ labelTeamSeason r "TEAM" (Some "constructor")
     = "Sixers (function Object() { [native code] })"
  /\ labelTeamSeason r "TEAM" (Some "constructor") <> labelTeamSeason r "TEAM" None.
Proof.
  intros r. repeat split; try reflexivity; discriminate.
Qed.

(** ** Text *)

Section Text.

Lemma append_assoc (s t u : string) : (s +:+ t) +:+ u = s +:+ t +:+ u.
Proof.
  induction s as [|ch s IH]; [done|].
  change (String ch ((s +:+ t) +:+ u) = String ch (s +:+ t +:+ u)).
  by rewrite IH.
Qed.

Lemma append_nil_r (s : string) : s +:+ "" = s.
Proof.
  induction s as [|ch s IH]; [done|].
  change (String ch (s +:+ "") = String ch s). by rewrite IH.
Qed.

Lemma occurs_refl s : Str.occurs s s.
Proof. exists "", "". by rewrite append_nil_r. Qed.

Lemma occurs_app_l sub s t : Str.occurs sub s -> Str.occurs sub (s +:+ t).
Proof.
  intros (pre & post & ->). exists pre, (post +:+ t).
  by rewrite !append_assoc.
Qed.

Lemma occurs_app_r sub s t : Str.occurs sub t -> Str.occurs sub (s +:+ t).
Proof.
  intros (pre & post & ->). exists (s +:+ pre), post.
  by rewrite !append_assoc.
Qed.

Lemma join_cons sep x y l :
  Str.join sep (x :: y :: l) = x +:+ sep +:+ Str.join sep (y :: l).
Proof. reflexivity. Qed.

(** Every element of a joined list occurs in the result. *)
Lemma occurs_join sep x l : x ∈ l -> Str.occurs x (Str.join sep l).
Proof.
  induction l as [|y l IH]; intros Hx; [by apply elem_of_nil in Hx|].
  destruct l as [|z l].
  - apply list_elem_of_singleton in Hx as ->. apply occurs_refl.
  - rewrite join_cons. apply elem_of_cons in Hx as [->|Hx].
    + apply occurs_app_l, occurs_refl.
    + apply occurs_app_r, occurs_app_r, IH, Hx.
Qed.

Lemma trimStart_allWhiteSpace s : allWhiteSpace s = true -> Str.trimStart s = "".
Proof.
  induction s as [|ch s IH]; simpl; [done|].
  intros [Hch Hs]%andb_prop. rewrite Hch. by apply IH.
Qed.

Lemma trim_allWhiteSpace s : allWhiteSpace s = true -> Str.trim s = "".
Proof. intros Hs. unfold Str.trim. by rewrite trimStart_allWhiteSpace. Qed.

(** The first character of a printed number is a digit. *)
Lemma ofN_head n : exists d rest, Str.ofN n = String d rest /\ Str.digitOf d <> None.
Proof.
  unfold Str.ofN. destruct n as [|p]; [by exists "0"%char, ""|].
  simpl. pose proof (DecimalPos.Unsigned.to_uint_nonnil p) as Hp.
  destruct (Pos.to_uint p); [done|..]; simpl; eexists _, _; split; try reflexivity; done.
Qed.

Lemma chars_app s t : chars (s +:+ t) = (chars s ++ chars t)%list.
Proof.
  induction s as [|ch s IH]; [done|].
  change (ch :: chars (s +:+ t) = ch :: (chars s ++ chars t)%list).
  by rewrite IH.
Qed.

Lemma occurs_chars sub s ch : Str.occurs sub s -> ch ∈ chars sub -> ch ∈ chars s.
Proof.
  intros (pre & post & ->) Hch. rewrite !chars_app, !elem_of_app. auto.
Qed.

(** A string without digits carries no status code. *)
Lemma no_digit_no_status s n :
  Forall (fun ch => Str.digitOf ch = None) (chars s) -> ~ Str.occurs (Str.ofN n) s.
Proof.
  intros Hnone Hocc. destruct (ofN_head n) as (d & rest & Hn & Hd).
  rewrite Forall_forall in Hnone. apply Hd, Hnone.
  eapply occurs_chars; [exact Hocc|]. rewrite Hn. by left.
Qed.

End Text.

(** ** Required attributes *)

Section Required.
Context `{Engine}.

Lemma ensureRequired_cases c keys tr :
  (List.filter (isMissing c) keys = []
   /\ ensureRequired c keys tr = (Returned tt, tr))
  \/ (List.filter (isMissing c) keys <> []
      /\ ensureRequired c keys tr
         = (Thrown (Error ("Canvas is missing required data-* attributes: "
              +:+ Str.join ", " (map dataAttr (List.filter (isMissing c) keys)))),
            tr)).
Proof.
  unfold ensureRequired. destruct (List.filter (isMissing c) keys); [by left|by right].
Qed.

(** Every builder starts with [ensureRequired] on its required keys. *)
Lemma build_ensureRequired k w c :
  exists rest, build k w c = (ensureRequired c (required k);; rest).
Proof. destruct k; eexists; reflexivity. Qed.

Lemma missingAttr_isMissing c key : missingAttr c key -> isMissing c key = true.
Proof. unfold isMissing. by intros [-> | ->]. Qed.

Lemma elem_of_filter_list {A} (P : A -> bool) x (l : list A) :
  x ∈ List.filter P l <-> x ∈ l /\ P x = true.
Proof. rewrite !list_elem_of_In. apply List.filter_In. Qed.

(** A builder whose configuration misses a required key throws, with the
    trace as it was, an error naming every key [isMissing] finds. *)
Lemma build_missing k w c tr key :
  key ∈ required k -> isMissing c key = true ->
  exists msg,
    build k w c tr = (Thrown (Error msg), tr)
    /\ msg = "Canvas is missing required data-* attributes: "
             +:+ Str.join ", " (map dataAttr (List.filter (isMissing c) (required k)))
    /\ forall key', key' ∈ required k -> isMissing c key' = true ->
         Str.occurs (dataAttr key') msg.
Proof.
  intros Hkey Hmiss. destruct (build_ensureRequired k w c) as [rest ->].
  unfold bind.
  destruct (ensureRequired_cases c (required k) tr) as [[Hnil _]|[_ ->]].
  - assert (Hin : key ∈ List.filter (isMissing c) (required k))
      by by apply elem_of_filter_list.
    rewrite Hnil in Hin. by apply elem_of_nil in Hin.
  - eexists. split; [reflexivity|]. split; [reflexivity|].
    intros key' Hkey' Hmiss'. apply occurs_app_r, occurs_join.
    apply list_elem_of_fmap. exists key'. split; [done|].
    by apply elem_of_filter_list.
Qed.

(** C5: when one or more of the keys a builder requires are absent or
    empty, the builder fails before anything is fetched or drawn (the
    trace is as it was), with an error whose message names, as
    [data-*] attributes, every required key that is absent or empty. *)
Theorem build_missing_keys k w c tr :
  (exists key, key ∈ required k /\ missingAttr c key) ->
  exists msg,
    build k w c tr = (Thrown (Error msg), tr)
    /\ forall key, key ∈ required k -> missingAttr c key ->
         Str.occurs (dataAttr key) msg.
Proof.
  intros (key & Hkey & Hmiss).
  destruct (build_missing k w c tr key Hkey (missingAttr_isMissing _ _ Hmiss))
    as (msg & Hbuild & _ & Hnames).
  exists msg. split; [done|].
  intros key' Hkey' Hmiss'. apply Hnames; [done|]. by apply missingAttr_isMissing.
Qed.

Lemma isMissing_whitespace c key ws key' :
  allWhiteSpace ws = true ->
  isMissing (setAttr c key ws) key' = isMissing (removeAttr c key) key'.
Proof.
  intros Hws. unfold isMissing, setAttr, removeAttr. simpl.
  destruct (decide (key = key')) as [->|Hne].
  - rewrite lookup_insert_eq, lookup_delete_eq. simpl.
    rewrite (trim_allWhiteSpace ws Hws). simpl. apply orb_true_r.
  - by rewrite lookup_insert_ne, lookup_delete_ne.
Qed.

(** C10: a required attribute that holds only white space is reported
    like one that is absent: for every builder the same error is thrown,
    before anything is fetched, whether the attribute is set to
    white space or removed. *)
Theorem build_whitespace_attribute k w c key ws tr :
  key ∈ required k -> allWhiteSpace ws = true ->
  exists msg,
    build k w (setAttr c key ws) tr = (Thrown (Error msg), tr)
    /\ build k w (removeAttr c key) tr = (Thrown (Error msg), tr)
    /\ Str.occurs (dataAttr key) msg.
Proof.
  intros Hkey Hws.
  assert (Hrem : isMissing (removeAttr c key) key = true).
  { unfold isMissing, removeAttr. simpl. by rewrite lookup_delete_eq. }
  assert (Hset : isMissing (setAttr c key ws) key = true)
    by by rewrite isMissing_whitespace.
  destruct (build_missing k w _ tr key Hkey Hset) as (msg & Hb1 & Hm1 & Hn1).
  destruct (build_missing k w _ tr key Hkey Hrem) as (msg' & Hb2 & Hm2 & _).
  assert (msg = msg') as <-.
  { rewrite Hm1, Hm2. do 3 f_equal.
    apply List.filter_ext. intros key'. by apply isMissing_whitespace. }
  exists msg. split; [done|]. split; [done|]. by apply Hn1.
Qed.

End Required.

(** The theorem at a bar chart without [data-label-col] and with an empty
    [data-y-col]: both are named. *)
Lemma build_missing_keys_witness :
  let c := canvasOf [("csv", "a.csv"); ("yCol", "")] in
  let w := World (fun _ => None) (fun _ => None) in
  exists msg,
    build Bar w c [] = (Thrown (Error msg), [])
    /\ Str.occurs "data-label-col" msg /\ Str.occurs "data-y-col" msg.
Proof.
  intros c w.
  destruct (build_missing_keys Bar w c []) as (msg & Hbuild & Hnames).
  - exists "labelCol". split; [|left; reflexivity].
    apply elem_of_cons; right; apply elem_of_cons; left; reflexivity.
  - exists msg. split; [exact Hbuild|]. split.
    + apply (Hnames "labelCol"); [|left; reflexivity].
      apply elem_of_cons; right; apply elem_of_cons; left; reflexivity.
    + apply (Hnames "yCol"); [|right; reflexivity].
      apply elem_of_cons; right; apply elem_of_cons; right;
        apply elem_of_cons; left; reflexivity.
Defined.

(** The theorem at a wins-losses chart whose [data-wins-col] is a space
    and a tab. *)
Lemma build_whitespace_attribute_witness :
  let c := canvasOf [("csv", "a.csv"); ("labelCol", "TEAM"); ("lossesCol", "L")] in
  let w := World (fun _ => None) (fun _ => None) in
  let ws := String " " (String (ascii_of_nat 9) "") in
  exists msg,
    build WinsLosses w (setAttr c "winsCol" ws) [] = (Thrown (Error msg), [])
    /\ build WinsLosses w (removeAttr c "winsCol") [] = (Thrown (Error msg), [])
    /\ Str.occurs "data-wins-col" msg.
Proof.
  intros c w ws.
  apply (build_whitespace_attribute WinsLosses w c "winsCol" ws []); [|reflexivity].
  apply elem_of_cons; right; apply elem_of_cons; right;
    apply elem_of_cons; left; reflexivity.
Defined.

(** ** Loading *)

Section Loading.
Context `{Engine}.

(** The four ways [loadCsv] ends. *)
Lemma loadCsv_cases w url tr :
  (truthy url = false
   /\ loadCsv w url tr = (Thrown (Error missingUrlMessage), tr))
  \/ (truthy url = true /\ fetch w (default "" url) = None
      /\ loadCsv w url tr
         = (Thrown (TypeError "Failed to fetch"), (tr ++ [Fetch (default "" url)])%list))
  \/ (exists res, truthy url = true /\ fetch w (default "" url) = Some res
      /\ ok res = false
      /\ loadCsv w url tr
         = (Thrown (Error (notFoundMessage (default "" url) (status res))),
            (tr ++ [Fetch (default "" url)])%list))
  \/ (exists res rows, truthy url = true /\ fetch w (default "" url) = Some res
      /\ ok res = true
      /\ loadCsv w url tr = (Returned rows, (tr ++ [Fetch (default "" url)])%list)).
Proof.
  unfold loadCsv. destruct (truthy url); simpl; [|by left].
  right. unfold bind, doFetch, bind, emit. simpl.
  destruct (fetch w (default "" url)) as [res|]; simpl; [|by left].
  right. destruct (ok res) eqn:Hok; simpl.
  - right. by eexists _, _.
  - left. by eexists.
Qed.

(** C6 (amended): [loadCsv] throws its own error exactly when the URL is
    absent or empty, or the fetch completes with a status that is not a
    success.  After a status that is not a success the message carries
    the URL and the status code; for an absent or empty URL nothing is
    fetched and the message is a fixed text. *)
Theorem loadCsv_failure w url tr :
  (truthy url = false ->
     loadCsv w url tr = (Thrown (Error missingUrlMessage), tr))
  /\ (forall res, truthy url = true -> fetch w (default "" url) = Some res ->
        ok res = false ->
        exists msg,
          loadCsv w url tr = (Thrown (Error msg), (tr ++ [Fetch (default "" url)])%list)
          /\ Str.occurs (default "" url) msg
          /\ Str.occurs (Str.ofN (status res)) msg)
  /\ (forall msg, (loadCsv w url tr).1 = Thrown (Error msg) ->
        truthy url = false
        \/ exists res, fetch w (default "" url) = Some res /\ ok res = false).
Proof.
  destruct (loadCsv_cases w url tr)
    as [[Hu Hl]|[(Hu & Hf & Hl)|[(res & Hu & Hf & Hok & Hl)|(res & rows & Hu & Hf & Hok & Hl)]]];
    rewrite Hl; simpl.
  - split; [done|]. split; [congruence|]. intros msg _. by left.
  - split; [congruence|]. split; [congruence|]. intros msg Hmsg. discriminate.
  - split; [congruence|]. split.
    + intros res' _ Hf' _. rewrite Hf in Hf'. injection Hf' as <-.
      eexists. split; [reflexivity|]. unfold notFoundMessage. split.
      * apply occurs_app_r, occurs_app_l, occurs_refl.
      * apply occurs_app_r, occurs_app_r, occurs_app_r, occurs_app_l, occurs_refl.
    + intros msg _. right. by exists res.
  - split; [congruence|]. split; [congruence|]. intros msg Hmsg. discriminate.
Qed.

End Loading.

(** The theorem at a URL answered with status 404. *)
Lemma loadCsv_failure_witness :
  let w := World (fun _ => Some (Response 404 "")) (fun _ => None) in
  exists msg,
    loadCsv w (Some "data/teams.csv") [] = (Thrown (Error msg), [Fetch "data/teams.csv"])
    /\ Str.occurs "data/teams.csv" msg /\ Str.occurs "404" msg.
Proof.
  intros w.
  destruct (loadCsv_failure w (Some "data/teams.csv") []) as (_ & Hstatus & _).
  apply (Hstatus (Response 404 "")); reflexivity.
Defined.

(** C6 as stated fails for a missing URL: the error thrown then has a
    message without a digit, so it carries no status code (nor was any URL
    attempted). *)
Lemma loadCsv_missing_url_no_status :
  let w := World (fun _ => Some (Response 200 "")) (fun _ => None) in
  loadCsv w None [] = (Thrown (Error "Missing data-csv attribute on canvas."), [])
  /\ ~ exists st, Str.occurs (Str.ofN st) "Missing data-csv attribute on canvas.".
Proof.
  intros w. split; [reflexivity|].
  intros [st Hst]. revert Hst. apply no_digit_no_status.
  repeat constructor.
Qed.

(** ** Series *)

Section Series.
Context `{Engine}.




Lemma not_elem_of_fetches cfg tr url :
  NewChart cfg ∈ (tr ++ [Fetch url])%list -> NewChart cfg ∈ tr.
Proof.
  rewrite elem_of_app, list_elem_of_singleton. by intros [?|?].
Qed.





End Series.


(** * Further properties *)

(** ** What [applySortLimit] returns *)

Section Results.
Context `{Engine}.

(** X1: the result holds records of the input only, each at most as often
    as the input has it, and as many of them as the limit allows: the
    smaller of the limit and the length of the input for a limit above 0,
    all of them otherwise. *)
Theorem applySortLimit_size rows c :
  applySortLimit rows c ⊆+ rows
  /\ length (applySortLimit rows c)
     = match limitOf c with
       | Some n => if 0 <? n then Nat.min (Z.to_nat n) (length rows) else length rows
       | None => length rows
       end.
Proof.
  split.
  - destruct (applySortLimit_take rows c) as [k ->].
    rewrite <- (sortedRows_perm rows c) at 2. apply submseteq_take.
  - rewrite applySortLimit_limit.
    pose proof (Permutation_length (sortedRows_perm rows c)) as Hlen.
    destruct (limitOf c) as [n|]; [|done].
    destruct (0 <? n); [|done]. by rewrite length_take, Hlen.
Qed.

Lemma compareRows_direction col d1 d2 a b :
  String.eqb d1 "asc" = String.eqb d2 "asc" ->
  compareRows col d1 a b = compareRows col d2 a b.
Proof. intros Hd. unfold compareRows. by rewrite Hd. Qed.

Lemma sortDirOf_setAttr c d :
  sortDirOf (setAttr c "sortDir" d) = if Str.isEmpty d then "desc" else Str.toLowerCase d.
Proof.
  unfold sortDirOf, setAttr. simpl. rewrite lookup_insert_eq.
  by destruct d.
Qed.

Lemma applySortLimit_same_direction rows c1 c2 :
  dataset c1 !! "sortCol" = dataset c2 !! "sortCol" ->
  dataset c1 !! "limit" = dataset c2 !! "limit" ->
  String.eqb (sortDirOf c1) "asc" = String.eqb (sortDirOf c2) "asc" ->
  applySortLimit rows c1 = applySortLimit rows c2.
Proof.
  intros Hcol Hlim Hdir. unfold applySortLimit, limitOf.
  rewrite Hcol, Hlim.
  assert (sort (compareRows (default "" (dataset c2 !! "sortCol")) (sortDirOf c1)) rows
          = sort (compareRows (default "" (dataset c2 !! "sortCol")) (sortDirOf c2)) rows)
    as -> by (apply sort_ext; intros a b; by apply compareRows_direction).
  done.
Qed.

(** X2: the direction is read without regard to case, and every value of
    [data-sort-dir] that is not "asc" in some casing sorts as if the
    attribute were not there, that is descending. *)
Theorem applySortLimit_direction rows c d :
  (Str.toLowerCase d = "asc" ->
     applySortLimit rows (setAttr c "sortDir" d)
     = applySortLimit rows (setAttr c "sortDir" "asc"))
  /\ (Str.toLowerCase d <> "asc" ->
      applySortLimit rows (setAttr c "sortDir" d)
      = applySortLimit rows (removeAttr c "sortDir")).
Proof.
  split; intros Hd; apply applySortLimit_same_direction.
  - unfold setAttr. simpl. by rewrite !lookup_insert_ne.
  - unfold setAttr. simpl. by rewrite !lookup_insert_ne.
  - rewrite !sortDirOf_setAttr. destruct d; [done|]. simpl Str.isEmpty. cbv iota.
    by rewrite Hd.
  - unfold setAttr, removeAttr. simpl. by rewrite lookup_insert_ne, lookup_delete_ne.
  - unfold setAttr, removeAttr. simpl. by rewrite lookup_insert_ne, lookup_delete_ne.
  - rewrite sortDirOf_setAttr. unfold sortDirOf, removeAttr. simpl.
    rewrite lookup_delete_eq. destruct d; [done|]. simpl Str.isEmpty. cbv iota.
    destruct (String.eqb_spec (Str.toLowerCase (String a d)) "asc"); [done|].
    reflexivity.
Qed.

End Results.

(** The theorem at "ASC" and at "down". *)
Lemma applySortLimit_direction_witness :
  let rows := map (fun z => rowOf (VNum (Some z))) [4; 8; 1] in
  let c := canvasOf [("sortCol", "v")] in
  applySortLimit rows (setAttr c "sortDir" "ASC")
  = applySortLimit rows (setAttr c "sortDir" "asc")
  /\ applySortLimit rows (setAttr c "sortDir" "down")
     = applySortLimit rows (removeAttr c "sortDir").
Proof.
  intros rows c.
  destruct (applySortLimit_direction rows c "ASC") as [Hasc _].
  destruct (applySortLimit_direction rows c "down") as [_ Hdesc].
  split; [apply Hasc; reflexivity | apply Hdesc; discriminate].
Defined.

(** ** The limit attribute *)

Section LimitAttribute.
Context `{Engine}.

Lemma leadingDigits_acc d p :
  Str.leadingDigits (NilEmpty.string_of_uint d) (Some (Z.pos p))
  = Some (Z.pos (Pos.of_uint_acc d p)).
Proof.
  revert p. induction d; intros p; simpl NilEmpty.string_of_uint;
    [done | cbn [Str.leadingDigits Pos.of_uint_acc]; 
            match goal with
            | |- context [Str.digitOf ?ch] =>
                let v := eval vm_compute in (Str.digitOf ch) in
                change (Str.digitOf ch) with v
            end; cbn [default from_option id];
            match goal with
            | |- Str.leadingDigits _ (Some ?z) = _ =>
                match goal with
                | |- _ = Some (Z.pos (Pos.of_uint_acc _ ?q)) =>
                    replace z with (Z.pos q) by lia
                end
            end; apply IHd ..].
Qed.

Lemma leadingDigits_zero d :
  Str.leadingDigits (NilEmpty.string_of_uint d) (Some 0)
  = Some (Z.of_N (Pos.of_uint d)).
Proof.
  induction d; simpl NilEmpty.string_of_uint; [done|..];
    cbn [Str.leadingDigits Pos.of_uint];
    match goal with
    | |- context [Str.digitOf ?ch] =>
        let v := eval vm_compute in (Str.digitOf ch) in
        change (Str.digitOf ch) with v
    end; cbn [default from_option id]; simpl Z.add;
    [exact IHd | apply leadingDigits_acc ..].
Qed.

Lemma leadingDigits_start ch s :
  Str.digitOf ch <> None ->
  Str.leadingDigits (String ch s) None = Str.leadingDigits (String ch s) (Some 0).
Proof. intros Hd. simpl. by destruct (Str.digitOf ch). Qed.

Lemma digit_plain ch :
  Str.digitOf ch <> None ->
  Str.isWhiteSpace ch = false /\ ch <> "-"%char /\ ch <> "+"%char.
Proof.
  destruct ch as [[] [] [] [] [] [] [] []]; vm_compute; intros Hd;
    try (by destruct Hd); repeat split; discriminate.
Qed.

(** [parseInt] reads back the decimal digits of a natural number. *)
Lemma parseInt_ofN n : Str.parseInt (Str.ofN n) = Some (Z.of_N n).
Proof.
  destruct (ofN_head n) as (ch & rest & Hn & Hd).
  destruct (digit_plain ch Hd) as (Hws & Hminus & Hplus).
  unfold Str.parseInt. rewrite Hn. simpl Str.trimStart. rewrite Hws.
  assert (Hgo : Str.leadingDigits (String ch rest) None = Some (Z.of_N n)).
  { rewrite leadingDigits_start by done. rewrite <- Hn. unfold Str.ofN.
    assert (Hnil : N.to_uint n <> Decimal.Nil).
    { destruct n; [discriminate|]. apply DecimalPos.Unsigned.to_uint_nonnil. }
    assert (NilZero.string_of_uint (N.to_uint n)
            = NilEmpty.string_of_uint (N.to_uint n)) as ->
      by (by destruct (N.to_uint n)).
    rewrite leadingDigits_zero.
    change (Pos.of_uint (N.to_uint n)) with (N.of_uint (N.to_uint n)).
    by rewrite DecimalN.Unsigned.of_to. }
  destruct ch as [[] [] [] [] [] [] [] []]; try exact Hgo; congruence.
Qed.

Lemma ofN_truthy n : truthy (Some (Str.ofN n)) = true.
Proof.
  destruct (ofN_head n) as (ch & rest & -> & _). reflexivity.
Qed.

(** X3: a [data-limit] written as the decimal digits of a natural number
    [n] up to 2^53 (where [parseInt] is exact) is read back as [n]: the
    result then has the smaller of [n] and the length of the input records
    when [n] is above 0, and all of them when [n] is 0. *)
Theorem applySortLimit_decimal_limit rows c n :
  (n <= 2 ^ 53)%N ->
  limitOf (setAttr c "limit" (Str.ofN n)) = Some (Z.of_N n)
  /\ length (applySortLimit rows (setAttr c "limit" (Str.ofN n)))
     = if (0 <? n)%N then Nat.min (N.to_nat n) (length rows) else length rows.
Proof.
  intros _.
  assert (Hlim : limitOf (setAttr c "limit" (Str.ofN n)) = Some (Z.of_N n)).
  { unfold limitOf, setAttr, orElse. simpl. rewrite lookup_insert_eq.
    rewrite ofN_truthy. simpl. apply parseInt_ofN. }
  split; [done|].
  rewrite applySortLimit_limit, Hlim.
  pose proof (Permutation_length
                (sortedRows_perm rows (setAttr c "limit" (Str.ofN n)))) as Hlen.
  destruct (N.ltb_spec 0 n), (Z.ltb_spec 0 (Z.of_N n)); try lia.
  rewrite length_take, Hlen. f_equal. lia.
Qed.

End LimitAttribute.

(** The theorem at a limit of 2 on three records. *)
Lemma applySortLimit_decimal_limit_witness :
  let rows := map (fun z => rowOf (VNum (Some z))) [4; 8; 1] in
  let c := canvasOf [("sortCol", "v")] in
  limitOf (setAttr c "limit" "2") = Some 2
  /\ length (applySortLimit rows (setAttr c "limit" "2")) = 2%nat.
Proof.
  intros rows c.
  apply (applySortLimit_decimal_limit rows c 2). simpl. lia.
Defined.

(** ** What a builder does *)

Section Runs.
Context `{Engine}.

(** [rows[i]] is always there in [buildModelComparison]: the indices come
    from [rows] itself. *)
Lemma mapM_metrics_rows rows rs n tr :
  (forall i r, rs !! i = Some r -> rows !! (n + i)%nat = Some r) ->
  mapM (fun '(i, model) =>
          let* d := metricsOfRow rows i in ret (Series model d))
       (imap (fun i m => ((n + i)%nat, m)) (map (fun r => get r "MODEL") rs)) tr
  = (Returned (map (fun r => Series (get r "MODEL")
                                (map (fun m => DVal (get r m)) metrics)) rs), tr).
Proof.
  revert n. induction rs as [|r rs IH]; intros n Hrs; [done|].
  simpl map. rewrite imap_cons. simpl mapM. unfold bind at 1. unfold bind at 1.
  unfold metricsOfRow at 1. rewrite (Hrs 0%nat r eq_refl). unfold ret at 1 2.
  unfold bind at 1.
  rewrite (imap_ext _ (fun i m => ((S n + i)%nat, m)))
    by (intros i x _; simpl; f_equal; lia).
  rewrite IH; [done|].
  intros i r' Hi. replace (S n + i)%nat with (n + S i)%nat by lia. by apply Hrs.
Qed.

Lemma mapM_metrics_all rows tr :
  mapM (fun '(i, model) =>
          let* d := metricsOfRow rows i in ret (Series model d))
       (imap pair (map (fun r => get r "MODEL") rows)) tr
  = (Returned (map (fun r => Series (get r "MODEL")
                                (map (fun m => DVal (get r m)) metrics)) rows), tr).
Proof. by apply (mapM_metrics_rows rows rows 0). Qed.

Lemma bind_ext {A B} (m : M A) (k k' : A -> M B) tr :
  (forall a tr', k a tr' = k' a tr') -> bind m k tr = bind m k' tr.
Proof.
  intros Hk. unfold bind. destruct (m tr) as [[a|e] tr']; [apply Hk|done].
Qed.

(** Every builder is: check the required keys, load, draw. *)
Lemma build_run k w c tr :
  build k w c tr
  = (ensureRequired c (required k);;
     let* rows := loadCsv w (dataset c !! "csv") in draw c (chartOf k c rows)) tr.
Proof.
  destruct k; try reflexivity.
  unfold build, buildModelComparison.
  apply bind_ext. intros _ tr1. apply bind_ext. intros rows tr2.
  unfold bind at 1. by rewrite mapM_metrics_all.
Qed.

Lemma required_csv k : "csv" ∈ required k.
Proof. destruct k; apply elem_of_cons; by left. Qed.

Lemma not_missing_truthy c k : isMissing c k = false -> truthy (dataset c !! k) = true.
Proof.
  unfold isMissing. intros Hm. apply orb_false_elim in Hm as [Hm _].
  by apply negb_false_iff.
Qed.

Lemma filter_nil_not_missing c keys k :
  List.filter (isMissing c) keys = [] -> k ∈ keys -> isMissing c k = false.
Proof.
  intros Hnil Hk. destruct (isMissing c k) eqn:Hm; [|done].
  assert (Hin : k ∈ List.filter (isMissing c) keys) by by apply elem_of_filter_list.
  rewrite Hnil in Hin. by apply elem_of_nil in Hin.
Qed.

(** The ways a builder runs, from an empty trace. *)
Lemma build_cases k w c :
  let u := default "" (dataset c !! "csv") in
  ((exists key, key ∈ required k /\ isMissing c key = true)
   /\ exists msg, build k w c [] = (Thrown (Error msg), []))
  \/ ((forall key, key ∈ required k -> isMissing c key = false)
      /\ ((exists e, loadCsv w (dataset c !! "csv") [] = (Thrown e, [Fetch u])
                     /\ build k w c [] = (Thrown e, [Fetch u]))
          \/ (exists rows, loadCsv w (dataset c !! "csv") [] = (Returned rows, [Fetch u])
                /\ build k w c []
                   = (Returned tt,
                      if context2d c then [Fetch u; NewChart (chartOf k c rows)]
                      else [Fetch u])))).
Proof.
  intros u.
  assert (Hb : build k w c []
    = match ensureRequired c (required k) [] with
      | (Returned _, tr) =>
          match loadCsv w (dataset c !! "csv") tr with
          | (Returned rows, tr') => draw c (chartOf k c rows) tr'
          | (Thrown e, tr') => (Thrown e, tr')
          end
      | (Thrown e, tr) => (Thrown e, tr)
      end) by (by rewrite build_run).
  rewrite Hb. clear Hb.
  destruct (ensureRequired_cases c (required k) []) as [[Hnil Hreq]|[Hne Hreq]];
    rewrite Hreq.
  - right. split; [intros key; by apply filter_nil_not_missing|].
    assert (Hcsv : truthy (dataset c !! "csv") = true).
    { apply not_missing_truthy, (filter_nil_not_missing c (required k)); [done|].
      apply required_csv. }
    destruct (loadCsv_cases w (dataset c !! "csv") [])
      as [[Hu Hl]|[(Hu & Hf & Hl)|[(res & Hu & Hf & Hok & Hl)|(res & rows & Hu & Hf & Hok & Hl)]]];
      rewrite Hl; try congruence.
    + left. eexists. split; reflexivity.
    + left. eexists. split; reflexivity.
    + right. exists rows. split; [reflexivity|]. unfold draw, emit, ret.
      by destruct (context2d c).
  - left. split; [|by eexists].
    destruct (List.filter (isMissing c) (required k)) as [|key l] eqn:Hf; [done|].
    exists key. apply elem_of_filter_list. rewrite Hf. by left.
Qed.

(** X4: a builder fetches at most once, and only the [data-csv] URL; it
    draws at most one chart, after the fetch, and only when it returns
    without an error on a canvas that has a 2d context; and it fetches
    nothing exactly when a required attribute is missing or blank. *)
Theorem build_trace k w c :
  let u := default "" (dataset c !! "csv") in
  ((build k w c []).2 = []
   \/ (build k w c []).2 = [Fetch u]
   \/ (exists cfg, (build k w c []).2 = [Fetch u; NewChart cfg]
         /\ (build k w c []).1 = Returned tt /\ context2d c = true))
  /\ ((build k w c []).2 = []
      <-> exists key, key ∈ required k /\ isMissing c key = true).
Proof.
  intros u.
  destruct (build_cases k w c)
    as [[Hmiss (msg & ->)]|[Hok [(e & _ & ->)|(rows & _ & ->)]]]; simpl.
  - split; [by left|]. split; [intros _; exact Hmiss|done].
  - split; [right; by left|]. split; [done|].
    intros (key & Hkey & Hm). rewrite Hok in Hm; done.
  - split.
    + destruct (context2d c); [right; right; by eexists|right; by left].
    + split; [by destruct (context2d c)|].
      intros (key & Hkey & Hm). rewrite Hok in Hm; done.
Qed.

(** X5: without a 2d context a builder ends as it does with one (the same
    error, or none) after the same fetch; only the chart is not drawn. *)
Theorem build_without_context k w ds :
  (build k w (Canvas ds false) []).1 = (build k w (Canvas ds true) []).1
  /\ (build k w (Canvas ds false) []).2
     = List.filter isFetch (build k w (Canvas ds true) []).2.
Proof.
  destruct (build_cases k w (Canvas ds false))
    as [[(key & Hkey & Hm) (msg & Hb)]|[Hok [(e & Hl & Hb)|(rows & Hl & Hb)]]];
  destruct (build_cases k w (Canvas ds true))
    as [[(key' & Hkey' & Hm') (msg' & Hb')]|[Hok' [(e' & Hl' & Hb')|(rows' & Hl' & Hb')]]];
  simpl in *; rewrite Hb, Hb'; simpl;
    try (exfalso; unfold isMissing in *; simpl in *;
         first [ rewrite (Hok _ Hkey') in Hm' | rewrite (Hok' _ Hkey) in Hm ];
         discriminate);
    try (rewrite Hl in Hl'; by simplify_eq).
  destruct (build_missing k w (Canvas ds false) [] key Hkey Hm) as (m1 & Hb1 & Hm1 & _).
  destruct (build_missing k w (Canvas ds true) [] key' Hkey' Hm') as (m2 & Hb2 & Hm2 & _).
  rewrite Hb in Hb1. rewrite Hb' in Hb2. simplify_eq. done.
Qed.

End Runs.

(** ** What is drawn *)

Section Drawn.
Context `{Engine}.

Lemma not_missing_Some c k :
  isMissing c k = false -> exists v, dataset c !! k = Some v /\ key (dataset c !! k) = v.
Proof.
  intros Hm. apply not_missing_truthy in Hm.
  destruct (dataset c !! k) as [v|]; [by exists v|done].
Qed.

(** A chart in the trace is the one [chartOf] gives for the loaded rows,
    and every required attribute is there. *)
Lemma drawn_chart k w c cfg :
  NewChart cfg ∈ (build k w c []).2 ->
  exists rows,
    loadCsv w (dataset c !! "csv") [] = (Returned rows, [Fetch (default "" (dataset c !! "csv"))])
    /\ cfg = chartOf k c rows
    /\ forall key, key ∈ required k -> isMissing c key = false.
Proof.
  destruct (build_cases k w c)
    as [[Hmiss (msg & ->)]|[Hok [(e & _ & ->)|(rows & Hl & ->)]]]; simpl.
  - by intros Hin%elem_of_nil.
  - by intros Hin%list_elem_of_singleton.
  - destruct (context2d c).
    + rewrite elem_of_cons, list_elem_of_singleton. intros [?|Hcfg]; [done|].
      exists rows. split; [done|]. split; [congruence|done].
    + by intros Hin%list_elem_of_singleton.
Qed.

(** X6: in the wins-losses chart the i-th label, the i-th win and the i-th
    loss come from the same record, the i-th that [applySortLimit] returns
    for the loaded rows; the label is its [labelTeamSeason]. *)
Theorem buildWinsLosses_aligned w c cfg :
  NewChart cfg ∈ (build WinsLosses w c []).2 ->
  exists rowsRaw labelCol winsCol lossesCol lbls wins losses,
    (loadCsv w (dataset c !! "csv") []).1 = Returned rowsRaw
    /\ dataset c !! "labelCol" = Some labelCol
    /\ dataset c !! "winsCol" = Some winsCol
    /\ dataset c !! "lossesCol" = Some lossesCol
    /\ labels cfg = Some lbls
    /\ datasets cfg
       = [Series (VStr (orElse (dataset c !! "winsLabel") "Wins")) wins;
          Series (VStr (orElse (dataset c !! "lossesLabel") "Losses")) losses]
    /\ forall i,
         lbls !! i = (fun r => VStr (labelTeamSeason r labelCol (seasonColOf c)))
                       <$> applySortLimit rowsRaw c !! i
         /\ wins !! i = (fun r => DVal (get r winsCol)) <$> applySortLimit rowsRaw c !! i
         /\ losses !! i = (fun r => DVal (get r lossesCol)) <$> applySortLimit rowsRaw c !! i.
Proof.
  intros Hin. destruct (drawn_chart _ _ _ _ Hin) as (rows & Hl & -> & Hreq).
  destruct (not_missing_Some c "labelCol") as (labelCol & Hlc & Hkl);
    [apply Hreq; set_solver|].
  destruct (not_missing_Some c "winsCol") as (winsCol & Hwc & Hkw);
    [apply Hreq; set_solver|].
  destruct (not_missing_Some c "lossesCol") as (lossesCol & Hlo & Hko);
    [apply Hreq; set_solver|].
  exists rows, labelCol, winsCol, lossesCol. eexists _, _, _.
  rewrite Hl. split; [done|]. do 3 (split; [done|]).
  split; [reflexivity|]. split; [reflexivity|].
  intros i. rewrite Hkl, Hkw, Hko, !list_lookup_fmap. done.
Qed.

(** X7: the bar, simple-bar and horizontal-bar charts hold one series, whose
    i-th value is the [data-y-col] cell of the i-th record that
    [applySortLimit] returns.  Its name is [data-y-label], or the column
    name when that is missing ("Importance" for horizontal-bar).  The i-th
    label is the record's [labelTeamSeason] for bar and the raw
    [data-label-col] cell for the other two. *)
Theorem build_single_series k w c cfg :
  k = Bar \/ k = SimpleBar \/ k = HorizontalBar ->
  NewChart cfg ∈ (build k w c []).2 ->
  exists rowsRaw labelCol yCol lbls vals,
    (loadCsv w (dataset c !! "csv") []).1 = Returned rowsRaw
    /\ dataset c !! "labelCol" = Some labelCol
    /\ dataset c !! "yCol" = Some yCol
    /\ labels cfg = Some lbls
    /\ datasets cfg
       = [Series (VStr (match k with
                        | HorizontalBar => "Importance"
                        | _ => orElse (dataset c !! "yLabel") yCol
                        end)) vals]
    /\ forall i,
         lbls !! i = singleLabel k c labelCol <$> applySortLimit rowsRaw c !! i
         /\ vals !! i = (fun r => DVal (get r yCol)) <$> applySortLimit rowsRaw c !! i.
Proof.
  intros Hk Hin. destruct (drawn_chart _ _ _ _ Hin) as (rows & Hl & -> & Hreq).
  destruct (not_missing_Some c "labelCol") as (labelCol & Hlc & Hkl);
    [apply Hreq; destruct Hk as [-> | [-> | ->]]; set_solver|].
  destruct (not_missing_Some c "yCol") as (yCol & Hyc & Hky);
    [apply Hreq; destruct Hk as [-> | [-> | ->]]; set_solver|].
  exists rows, labelCol, yCol.
  destruct Hk as [-> | [-> | ->]]; eexists _, _;
    rewrite Hl; (split; [done|]); do 2 (split; [done|]);
    simpl chartOf; rewrite Hkl, Hky;
    (split; [reflexivity|]); (split; [reflexivity|]);
    intros i; by rewrite !list_lookup_fmap.
Qed.

(** X8: the model-comparison builder never fails on [rows[i]]: once the
    rows are loaded it returns, and the chart it draws has the five metric
    labels and one series for each loaded row, in order, named by the
    row's MODEL cell and holding its five metric cells. *)
Theorem buildModelComparison_series w c rows :
  isMissing c "csv" = false ->
  (loadCsv w (dataset c !! "csv") []).1 = Returned rows ->
  (build ModelComparison w c []).1 = Returned tt
  /\ (context2d c = true ->
      exists cfg,
        NewChart cfg ∈ (build ModelComparison w c []).2
        /\ labels cfg = Some (map VStr metricLabels)
        /\ length (datasets cfg) = length rows
        /\ forall i r, rows !! i = Some r ->
             datasets cfg !! i
             = Some (Series (get r "MODEL") (map (fun m => DVal (get r m)) metrics))).
Proof.
  intros Hcsv Hload.
  destruct (build_cases ModelComparison w c)
    as [[(key & Hkey & Hm) _]|[Hok [(e & Hl & _)|(rows' & Hl & Hb)]]].
  - apply list_elem_of_singleton in Hkey as ->. congruence.
  - rewrite Hl in Hload. discriminate.
  - rewrite Hl in Hload. simpl in Hload. injection Hload as ->.
    rewrite Hb. split; [done|]. intros ->. eexists. split.
    + simpl. apply elem_of_cons; right. apply elem_of_cons; by left.
    + simpl. split; [done|]. split; [by rewrite length_map|].
      intros i r Hi. by rewrite list_lookup_fmap, Hi.
Qed.

(** X9: the ROC chart has no labels and always four series: the three
    curves, each with one point for each loaded row (its FPR cell against
    its TPR_LR, TPR_RF or TPR_XGB cell), and last the diagonal from (0, 0)
    to (1, 1), whatever was loaded. *)
Theorem buildRocCurves_series w c cfg :
  NewChart cfg ∈ (build RocCurves w c []).2 ->
  exists rows,
    (loadCsv w (dataset c !! "csv") []).1 = Returned rows
    /\ labels cfg = None
    /\ datasets cfg
       = [Series (VStr "Logistic Regression (AUC=0.842)")
            (map (fun r => DPoint (get r "FPR") (get r "TPR_LR")) rows);
          Series (VStr "Random Forest (AUC=0.839)")
            (map (fun r => DPoint (get r "FPR") (get r "TPR_RF")) rows);
          Series (VStr "XGBoost (AUC=0.841)")
            (map (fun r => DPoint (get r "FPR") (get r "TPR_XGB")) rows);
          Series (VStr "Random Classifier") [DPointLit 0 0; DPointLit 1 1]].
Proof.
  intros Hin. destruct (drawn_chart _ _ _ _ Hin) as (rows & Hl & -> & _).
  exists rows. rewrite Hl. by repeat split.
Qed.

(** X10: the rows [loadCsv] returns are exactly the objects of
    [parsed.data] that have at least one key, each as often as it is there
    and in the order it is there; what is not an object, or has no key, is
    dropped, and data that is not an array gives no rows. *)
Theorem loadCsv_rows w url tr rows tr' :
  loadCsv w url tr = (Returned rows, tr') ->
  exists res,
    fetch w (default "" url) = Some res /\ ok res = true
    /\ tr' = (tr ++ [Fetch (default "" url)])%list
    /\ rows = omap (fun it => match it with
                              | ItemObj o => if decide (o = ∅) then None else Some o
                              | ItemOther _ => None
                              end)
                   (default [] (Papa_parse w (text res)))
    /\ Forall (fun r => r <> ∅) rows
    /\ (Papa_parse w (text res) = None -> rows = []).
Proof.
  intros Hload.
  assert (Hkeep : forall it, keepRow it
            = match it with
              | ItemObj o => if decide (o = ∅) then None else Some o
              | ItemOther _ => None
              end).
  { intros [o|v]; simpl; [|done].
    destruct (decide (o = ∅)) as [->|Hne].
    - by rewrite map_size_empty.
    - destruct (Nat.ltb_spec 0 (size o)) as [Hs|Hs]; [done|].
      destruct Hne. apply map_size_empty_iff. lia. }
  unfold loadCsv in Hload. destruct (truthy url); simpl in Hload; [|done].
  unfold bind, doFetch, bind, emit in Hload. simpl in Hload.
  destruct (fetch w (default "" url)) as [res|] eqn:Hf; simpl in Hload; [|done].
  destruct (ok res) eqn:Hok; simpl in Hload; [|done].
  unfold ret in Hload. injection Hload as <- <-.
  exists res. do 3 (split; [done|]). split; [|split].
  - generalize (default [] (Papa_parse w (text res))). intros l.
    induction l as [|it l IH]; [done|].
    cbn [omap list_omap]. by rewrite Hkeep, IH.
  - apply Forall_forall. intros r (it & _ & Hit)%list_elem_of_omap.
    rewrite Hkeep in Hit. destruct it as [o|v]; [|done].
    destruct (decide (o = ∅)); [done|]. by injection Hit as <-.
  - by intros ->.
Qed.

End Drawn.

(** ** Colours, attribute names and the older label *)

Section Palette.
Context `{Engine}.

Lemma split_nonempty sep s : split sep s <> [].
Proof.
  destruct s as [|ch s]; simpl; [done|].
  destruct (Ascii.eqb ch sep); [done|]. by destruct (split sep s).
Qed.

Lemma join_push sep ch x rest :
  Str.join sep (String ch x :: rest) = String ch (Str.join sep (x :: rest)).
Proof. by destruct rest. Qed.

(** [split] and [join] undo each other: joining the pieces of a text
    with the separator gives the text back, and no piece holds the
    separator. *)
Lemma join_split sep s :
  Str.join (String sep "") (split sep s) = s
  /\ Forall (fun piece => sep ∉ chars piece) (split sep s).
Proof.
  induction s as [|ch s [IHj IHf]]; simpl.
  - split; [done|]. repeat constructor. by intros ?%elem_of_nil.
  - destruct (Ascii.eqb_spec ch sep) as [->|Hne].
    + split.
      * destruct (split sep s) as [|x l] eqn:Hs; [by apply split_nonempty in Hs|].
        rewrite join_cons. change ("" +:+ String sep "" +:+ Str.join (String sep "") (x :: l))
          with (String sep (Str.join (String sep "") (x :: l))).
        by rewrite IHj.
      * constructor; [by intros ?%elem_of_nil|done].
    + destruct (split sep s) as [|x l] eqn:Hs; [by apply split_nonempty in Hs|].
      split.
      * by rewrite join_push, IHj.
      * apply Forall_cons in IHf as [Hx Hl]. constructor; [|done].
        simpl. rewrite elem_of_cons. intros [?|?]; [congruence|done].
Qed.

Lemma split_length sep s :
  length (split sep s) = S (length (List.filter (Ascii.eqb sep) (chars s))).
Proof.
  induction s as [|ch s IH]; simpl; [done|].
  rewrite (Ascii.eqb_sym sep ch).
  destruct (Ascii.eqb ch sep); simpl; [by rewrite IH|].
  destruct (split sep s) as [|x l] eqn:Hs; [by apply split_nonempty in Hs|].
  simpl in *. done.
Qed.

Lemma trimEnd_idem s : Str.trimEnd (Str.trimEnd s) = Str.trimEnd s.
Proof.
  induction s as [|ch s IH]; simpl; [done|].
  destruct (Str.trimEnd s) as [|ch' t] eqn:Ht.
  - destruct (Str.isWhiteSpace ch) eqn:Hws; simpl; [done|]. by rewrite Hws.
  - simpl. simpl in IH. by rewrite IH.
Qed.

Lemma trimStart_trimEnd s :
  Str.trimStart s = s -> Str.trimStart (Str.trimEnd s) = Str.trimEnd s.
Proof.
  destruct s as [|ch s]; simpl; [done|].
  destruct (Str.isWhiteSpace ch) eqn:Hws.
  - intros Heq. exfalso.
    assert (Hlen : forall t, (String.length (Str.trimStart t) <= String.length t)%nat).
    { induction t as [|c t IHt]; simpl; [lia|].
      destruct (Str.isWhiteSpace c); simpl; lia. }
    specialize (Hlen s). rewrite Heq in Hlen. simpl in Hlen. lia.
  - intros _. destruct (Str.trimEnd s); simpl; by rewrite Hws.
Qed.

Lemma trimStart_idem s : Str.trimStart (Str.trimStart s) = Str.trimStart s.
Proof.
  induction s as [|ch s IH]; simpl; [done|].
  destruct (Str.isWhiteSpace ch) eqn:Hws; [done|]. simpl. by rewrite Hws.
Qed.

(** Trimming a trimmed text changes nothing. *)
Lemma trim_idem s : Str.trim (Str.trim s) = Str.trim s.
Proof.
  unfold Str.trim.
  rewrite (trimStart_trimEnd (Str.trimStart s)) by apply trimStart_idem.
  apply trimEnd_idem.
Qed.

(** X11: the palette of the simple-bar chart.  A [data-colors] attribute
    gives one colour more than it has semicolons; every colour is trimmed
    of white space on both sides; and without the attribute (or with it
    empty) the palette is the single colour "#3498db". *)
Theorem colorsOf_palette c :
  (forall attr, dataset c !! "colors" = Some attr -> attr <> "" ->
     length (colorsOf c)
     = S (length (List.filter (Ascii.eqb ";") (chars attr))))
  /\ (forall col, col ∈ colorsOf c -> Str.trim col = col)
  /\ (truthy (dataset c !! "colors") = false -> colorsOf c = ["#3498db"]).
Proof.
  split; [|split].
  - intros attr Hattr Hne. unfold colorsOf. rewrite Hattr. simpl.
    apply isEmpty_false in Hne. rewrite Hne. simpl.
    by rewrite length_map, split_length.
  - intros col Hcol. unfold colorsOf in Hcol.
    apply list_elem_of_fmap in Hcol as (raw & -> & _). apply trim_idem.
  - intros Hno. unfold colorsOf. by rewrite Hno.
Qed.

Lemma colorsOf_nonempty c : colorsOf c <> [].
Proof.
  unfold colorsOf. destruct (truthy _); [|done].
  pose proof (split_nonempty ";" (default "" (dataset c !! "colors"))) as Hs.
  by destruct (split _ _).
Qed.

(** X12: every bar of the simple-bar chart gets a colour of the palette,
    never [undefined]: the i-th bar the colour at i modulo the size of the
    palette, so the colours repeat with that period; without [data-colors]
    every bar is "#3498db". *)
Theorem bgColors_defined {A} c (labels : list A) :
  let colors := colorsOf c in
  length (bgColors colors labels) = length labels
  /\ (forall i, (i < length labels)%nat ->
        exists col, bgColors colors labels !! i = Some (Some col)
                    /\ colors !! (i mod length colors)%nat = Some col)
  /\ (forall i, (i + length colors < length labels)%nat ->
        bgColors colors labels !! (i + length colors)%nat = bgColors colors labels !! i)
  /\ (truthy (dataset c !! "colors") = false ->
      forall i, (i < length labels)%nat ->
        bgColors colors labels !! i = Some (Some "#3498db")).
Proof.
  intros colors.
  assert (Hpos : (0 < length colors)%nat).
  { pose proof (colorsOf_nonempty c). unfold colors. destruct (colorsOf c); simpl; [done|lia]. }
  assert (Hat : forall i, (i < length labels)%nat ->
            bgColors colors labels !! i = Some (colors !! (i mod length colors)%nat)).
  { intros i Hi. unfold bgColors. rewrite list_lookup_imap.
    destruct (lookup_lt_is_Some_2 labels i Hi) as [x ->]. done. }
  split; [apply length_imap|]. split; [|split].
  - intros i Hi. rewrite (Hat i Hi).
    destruct (lookup_lt_is_Some_2 colors (i mod length colors)%nat) as [col Hcol];
      [apply Nat.mod_upper_bound; lia|].
    exists col. by rewrite Hcol.
  - intros i Hi. rewrite !Hat by lia. do 2 f_equal.
    rewrite <- (Nat.mul_1_l (length colors)) at 1.
    by rewrite Nat.Div0.mod_add.
  - intros Hno i Hi. rewrite (Hat i Hi).
    assert (Hc : colors = ["#3498db"]) by (unfold colors, colorsOf; by rewrite Hno).
    rewrite Hc. change (length ["#3498db"]) with 1%nat. by rewrite Nat.mod_1_r.
Qed.

Lemma lowerChar_not_upper ch : Str.isUpper (Str.lowerChar ch) = false.
Proof. destruct ch as [[] [] [] [] [] [] [] []]; reflexivity. Qed.

Lemma dash_not_upper : Str.isUpper "-" = false.
Proof. reflexivity. Qed.

(** X13: the attribute name reported for a key has no upper-case letter,
    and it is "data-" followed by the key itself when the key has none. *)
Theorem dataAttr_lower k :
  Forall (fun ch => Str.isUpper ch = false) (chars (dataAttr k))
  /\ (Forall (fun ch => Str.isUpper ch = false) (chars k) -> dataAttr k = "data-" +:+ k).
Proof.
  unfold dataAttr. split.
  - change (chars ("data-" +:+ Str.kebab k))
      with ("d" :: "a" :: "t" :: "a" :: "-" :: chars (Str.kebab k))%char.
    repeat (constructor; [reflexivity|]).
    induction k as [|ch k IH]; simpl; [constructor|].
    destruct (Str.isUpper ch) eqn:Hup; simpl.
    + constructor; [apply dash_not_upper|].
      constructor; [apply lowerChar_not_upper|done].
    + by constructor.
  - intros Hlow. f_equal. induction k as [|ch k IH]; simpl; [done|].
    apply Forall_cons in Hlow as [Hch Hk]. simpl in Hch. rewrite Hch.
    by rewrite IH.
Qed.

(** X14: the revision of [labelTeamSeason] that [src/charts.js] starts with
    gives the label of the current one with the text of the team value in
    front when that value is [null] or [undefined] ("null", "undefined"),
    and the same label otherwise. *)
Theorem legacy_labelTeamSeason row labelCol seasonCol :
  Legacy.labelTeamSeason row labelCol seasonCol
  = (if nullish (get row labelCol) then ToString (get row labelCol) else "")
    +:+ labelTeamSeason row labelCol seasonCol.
Proof.
  unfold Legacy.labelTeamSeason, labelTeamSeason.
  set (season := if truthy seasonCol then get row (default "" seasonCol) else VNull).
  destruct (absent season) eqn:Habs; simpl.
  - destruct (nullish (get row labelCol)); [by rewrite append_nil_r|done].
  - pose proof (ToString_nonempty _ Habs) as Hne. apply isEmpty_false in Hne.
    rewrite Hne. by destruct (nullish (get row labelCol)).
Qed.

End Palette.

(** The palette theorem at two colours written with a space. *)
Lemma colorsOf_palette_witness :
  let c := canvasOf [("colors", "#111; #222")] in
  length (colorsOf c) = 2%nat /\ colorsOf c = ["#111"; "#222"].
Proof.
  intros c. split; [|reflexivity].
  destruct (colorsOf_palette c) as (Hlen & _).
  apply (Hlen "#111; #222"); [reflexivity | discriminate].
Defined.

(** The colouring theorem at three bars and two colours. *)
Lemma bgColors_defined_witness :
  let c := canvasOf [("colors", "#111; #222")] in
  colorsOf c = ["#111"; "#222"]
  /\ bgColors (colorsOf c) ["a"; "b"; "c"] !! 2%nat = Some (Some "#111").
Proof.
  intros c. split; [reflexivity|].
  destruct (bgColors_defined c ["a"; "b"; "c"]) as (_ & Hat & _).
  destruct (Hat 2%nat) as (col & Hcol & Hmod); [simpl; lia|].
  rewrite Hcol. do 2 f_equal.
  assert (Hc : colorsOf c !! (2 mod length (colorsOf c))%nat = Some "#111")
    by reflexivity.
  rewrite Hc in Hmod. by injection Hmod.
Defined.

(** The attribute-name theorem at a key without upper-case letters. *)
Lemma dataAttr_lower_witness : dataAttr "csv" = "data-csv".
Proof.
  destruct (dataAttr_lower "csv") as [_ Hsame]. apply Hsame.
  repeat constructor.
Defined.

(** ** The comparator on a column of one kind *)

Section Consistent.
Context `{Engine}.

(** X15: on a column whose present values are of one kind (all numeric or
    all non-numeric) and whose absent values are all the same, the
    comparator is consistent, so the order does not depend on the engine:
    any permutation of the rows that is sorted by the comparator and keeps
    the rows it finds equal in their input order (what ECMAScript asks of
    [Array.prototype.sort]) is the array [applySortLimit] returns without a
    limit. *)
Theorem applySortLimit_engine_independent rows c col out :
  dataset c !! "sortCol" = Some col -> col <> "" ->
  consistentCol col rows ->
  out ≡ₚ rows ->
  StronglySorted (fun a b => compareRows col (sortDirOf c) a b <> Gt) out ->
  (forall x, x ∈ rows ->
     List.filter (tie (compareRows col (sortDirOf c)) x) out
     = List.filter (tie (compareRows col (sortDirOf c)) x) rows) ->
  applySortLimit rows (withoutLimit c) = out.
Proof.
  intros Hcol Hne Hcons Hperm Hsorted Hstable.
  rewrite sortedRows_withoutLimit, (sortedRows_sort rows c col Hcol Hne).
  pose proof (consistentCol_consistent col (sortDirOf c) rows Hcons) as Hc.
  rewrite (sort_insertion _ _ Hc). symmetry.
  by apply consistent_canonical.
Qed.

(** X16: on such a column (or without a sort column) applying
    [applySortLimit] to its own result changes nothing. *)
Theorem applySortLimit_idempotent rows c :
  (truthy (dataset c !! "sortCol") = true ->
   consistentCol (default "" (dataset c !! "sortCol")) rows) ->
  applySortLimit (applySortLimit rows c) c = applySortLimit rows c.
Proof.
  intros Hcons.
  assert (Hsorted : sortedRows (applySortLimit rows c) c = applySortLimit rows c).
  { destruct (applySortLimit_take rows c) as [k Hk]. rewrite Hk.
    unfold sortedRows at 1. destruct (truthy (dataset c !! "sortCol")) eqn:Hs; [|done].
    pose proof (consistentCol_consistent _ (sortDirOf c) rows (Hcons eq_refl)) as Hc.
    rewrite sort_insertion.
    - apply insertionSort_sorted_id, StronglySorted_take.
      unfold sortedRows. rewrite Hs. by apply sort_sorted.
    - apply (consistent_incl _ rows); [done|].
      intros x Hx. apply (subseteq_take k) in Hx.
      by rewrite (sortedRows_perm rows c) in Hx. }
  rewrite (applySortLimit_limit (applySortLimit rows c) c), Hsorted.
  rewrite (applySortLimit_limit rows c).
  destruct (limitOf c) as [n|]; [|done]. destruct (0 <? n); [|done].
  by rewrite take_take, Nat.min_id.
Qed.

End Consistent.

(** The engine-independence theorem at three rows, one without a value. *)
Lemma applySortLimit_engine_independent_witness :
  let r3 := rowOf (VNum (Some 3)) in
  let rn := rowOf VNull in
  let r1 := rowOf (VNum (Some 1)) in
  let c := canvasOf [("sortCol", "v"); ("sortDir", "asc")] in
  applySortLimit [r3; rn; r1] (withoutLimit c) = [r1; r3; rn].
Proof.
  intros r3 rn r1 c.
  apply (applySortLimit_engine_independent [r3; rn; r1] c "v" [r1; r3; rn]).
  - reflexivity.
  - discriminate.
  - split.
    + left. repeat constructor; intros Hp; try reflexivity; discriminate Hp.
    + exists VNull. repeat constructor; intros Ha; try reflexivity; discriminate Ha.
  - apply (Permutation_cons_append [r3; rn] r1).
  - repeat constructor; discriminate.
  - intros x Hx. rewrite !elem_of_cons, elem_of_nil in Hx.
    destruct Hx as [-> | [-> | [-> | []]]]; reflexivity.
Defined.

(** The idempotence theorem at a sorted and limited column. *)
Lemma applySortLimit_idempotent_witness :
  let rows := map (fun z => rowOf (VNum (Some z))) [4; 8; 1] in
  let c := canvasOf [("sortCol", "v"); ("limit", "2")] in
  applySortLimit (applySortLimit rows c) c = applySortLimit rows c.
Proof.
  intros rows c. apply applySortLimit_idempotent. intros _. split.
  - left. repeat constructor; intros _; reflexivity.
  - exists VNull. repeat constructor; intros Ha; discriminate Ha.
Defined.

(** ** The builders on a small world *)

(** The wins-losses theorem on that world. *)
Lemma buildWinsLosses_aligned_witness :
  let cfg := Chart "bar" "" (Some [VStr "Sixers"])
               [Series (VStr "Wins") [DVal (VNum (Some 9))];
                Series (VStr "Losses") [DVal (VNum (Some 73))]] in
  (build WinsLosses nbaWorld nbaCanvas []).2 = [Fetch "nba.csv"; NewChart cfg]
  /\ exists rowsRaw labelCol lbls,
       (loadCsv nbaWorld (dataset nbaCanvas !! "csv") []).1 = Returned rowsRaw
       /\ labels cfg = Some lbls
       /\ lbls !! 0%nat
          = (fun r => VStr (labelTeamSeason r labelCol (seasonColOf nbaCanvas)))
              <$> applySortLimit rowsRaw nbaCanvas !! 0%nat.
Proof.
  intros cfg. split; [reflexivity|].
  destruct (buildWinsLosses_aligned nbaWorld nbaCanvas cfg)
    as (rowsRaw & labelCol & winsCol & lossesCol & lbls & wins & losses
        & Hl & _ & _ & _ & Hlbls & _ & Hat).
  - apply elem_of_cons; right. apply elem_of_cons; left. reflexivity.
  - exists rowsRaw, labelCol, lbls. split; [exact Hl|]. split; [exact Hlbls|].
    destruct (Hat 0%nat) as [H0 _]. exact H0.
Defined.

(** The one-series theorem on that world, for the simple-bar chart. *)
Lemma build_single_series_witness :
  let cfg := Chart "bar" "" (Some [VStr "Sixers"])
               [Series (VStr "W") [DVal (VNum (Some 9))]] in
  (build SimpleBar nbaWorld nbaCanvas []).2 = [Fetch "nba.csv"; NewChart cfg]
  /\ exists rowsRaw yCol vals,
       (loadCsv nbaWorld (dataset nbaCanvas !! "csv") []).1 = Returned rowsRaw
       /\ datasets cfg = [Series (VStr (orElse (dataset nbaCanvas !! "yLabel") yCol)) vals]
       /\ vals !! 0%nat
          = (fun r => DVal (get r yCol)) <$> applySortLimit rowsRaw nbaCanvas !! 0%nat.
Proof.
  intros cfg. split; [reflexivity|].
  destruct (build_single_series SimpleBar nbaWorld nbaCanvas cfg)
    as (rowsRaw & labelCol & yCol & lbls & vals & Hl & _ & _ & _ & Hds & Hat).
  - right; left; reflexivity.
  - apply elem_of_cons; right. apply elem_of_cons; left. reflexivity.
  - exists rowsRaw, yCol, vals. split; [exact Hl|]. split; [exact Hds|].
    destruct (Hat 0%nat) as [_ H0]. exact H0.
Defined.

(** The model-comparison theorem on that world. *)
Lemma buildModelComparison_series_witness :
  (build ModelComparison nbaWorld nbaCanvas []).1 = Returned tt
  /\ exists cfg,
       NewChart cfg ∈ (build ModelComparison nbaWorld nbaCanvas []).2
       /\ length (datasets cfg) = 2%nat.
Proof.
  destruct (buildModelComparison_series nbaWorld nbaCanvas [sixers; bobcats])
    as [Hret Hdraw]; [reflexivity | reflexivity |].
  split; [exact Hret|].
  destruct (Hdraw eq_refl) as (cfg & Hin & _ & Hlen & _).
  exists cfg. split; [exact Hin | exact Hlen].
Defined.

(** The ROC theorem on that world. *)
Lemma buildRocCurves_series_witness :
  exists cfg rows,
    NewChart cfg ∈ (build RocCurves nbaWorld nbaCanvas []).2
    /\ (loadCsv nbaWorld (dataset nbaCanvas !! "csv") []).1 = Returned rows
    /\ labels cfg = None.
Proof.
  eexists.
  assert (Hin : NewChart (chartOf RocCurves nbaCanvas [sixers; bobcats])
                ∈ (build RocCurves nbaWorld nbaCanvas []).2).
  { apply elem_of_cons; right. apply elem_of_cons; left. reflexivity. }
  destruct (buildRocCurves_series nbaWorld nbaCanvas _ Hin) as (rows & Hl & Hlbls & _).
  exists rows. split; [exact Hin|]. split; [exact Hl | exact Hlbls].
Defined.

(** The loading theorem on that world: of the four items parsed, the two
    records with keys are kept. *)
Lemma loadCsv_rows_witness :
  loadCsv nbaWorld (Some "nba.csv") [] = (Returned [sixers; bobcats], [Fetch "nba.csv"])
  /\ Forall (fun r : gmap string value => r <> ∅) [sixers; bobcats].
Proof.
  split; [reflexivity|].
  destruct (loadCsv_rows nbaWorld (Some "nba.csv") [] [sixers; bobcats] [Fetch "nba.csv"])
    as (res & _ & _ & _ & _ & Hall & _); [reflexivity|].
  exact Hall.
Defined.
